(** * Expression style recognition (SoloLa): a shallow embedding

    The definitions below follow [Expression_style_recognition.py]
    function by function.  The numpy arrays of the source hold float64
    cells; they are modelled here as exact rationals ([Q]), every
    comparison of the source ([==], [>=], [>], [<], [!=]) being the
    corresponding decidable comparison on [Q].  A two dimensional array
    is a list of rows, a row a record with one field per column.  The
    in-place updates of the source are written as explicit state
    passing: every loop body takes the arrays it mutates and returns
    them. *)

From Stdlib Require Import QArith Qabs Qminmax Lia.
From stdpp Require Import list strings.

(** ** Numbers *)

Module Num.

Definition eqb (x y : Q) : bool := Qeq_bool x y.
Definition neqb (x y : Q) : bool := negb (Qeq_bool x y).
Definition leb (x y : Q) : bool := Qle_bool x y.
Definition ltb (x y : Q) : bool := negb (Qle_bool y x).
Definition geb (x y : Q) : bool := Qle_bool y x.
Definition gtb (x y : Q) : bool := negb (Qle_bool x y).

(** [np.sign] *)
Definition sign (x : Q) : Z := Z.sgn (Qnum x).

End Num.

(** ** Data model *)

(** A raw note, one row of an [n x 3] array: [pitch, onset, duration]. *)
Record note := Note { pitch : Q; onset : Q; duration : Q }.

(** One row of the expression style note array, columns 0 to 11:
    Pit On Dur PreB B R P H S SI SO V. *)
Record esn_row := Esn {
  e_pitch : Q; e_onset : Q; e_duration : Q;
  pre_bend : Q; bend : Q; release : Q;
  pull : Q; hamm : Q; slide : Q;
  slide_in : Q; slide_out : Q; vibrato : Q }.

(** [row[c]] for a column index in range. *)
Definition col (c : nat) (r : esn_row) : Q :=
  match c with
  | 0 => e_pitch r | 1 => e_onset r | 2 => e_duration r
  | 3 => pre_bend r | 4 => bend r | 5 => release r
  | 6 => pull r | 7 => hamm r | 8 => slide r
  | 9 => slide_in r | 10 => slide_out r | 11 => vibrato r
  | _ => 0%Q
  end.

(** [row[c] = v] for a column index in range. *)
Definition set_col (c : nat) (v : Q) (r : esn_row) : esn_row :=
  let '(Esn p o d pb b rl pl h s si so vb) := r in
  match c with
  | 0 => Esn v o d pb b rl pl h s si so vb
  | 1 => Esn p v d pb b rl pl h s si so vb
  | 2 => Esn p o v pb b rl pl h s si so vb
  | 3 => Esn p o d v b rl pl h s si so vb
  | 4 => Esn p o d pb v rl pl h s si so vb
  | 5 => Esn p o d pb b v pl h s si so vb
  | 6 => Esn p o d pb b rl v h s si so vb
  | 7 => Esn p o d pb b rl pl v s si so vb
  | 8 => Esn p o d pb b rl pl h v si so vb
  | 9 => Esn p o d pb b rl pl h s v so vb
  | 10 => Esn p o d pb b rl pl h s si v vb
  | 11 => Esn p o d pb b rl pl h s si so v
  | _ => r
  end.

(** The technique names the source dispatches on; any other string
    would leave the column index unbound. *)
Inductive technique :=
  | PreBend | Bend | Release | Pull | Hamm | Slide | SlideIn | SlideOut
  | Vibrato.

(** The [if technique=='pre-bend': t = 3 elif ...] chain. *)
Definition tech_col (tq : technique) : nat :=
  match tq with
  | PreBend => 3 | Bend => 4 | Release => 5 | Pull => 6 | Hamm => 7
  | Slide => 8 | SlideIn => 9 | SlideOut => 10 | Vibrato => 11
  end.

(** [np.hstack((notes, np.zeros((n, 9))))] *)
Definition esn_of_note (n : note) : esn_row :=
  Esn (pitch n) (onset n) (duration n) 0 0 0 0 0 0 0 0 0.

(** [esn[:, 0:3]] *)
Definition note_of_esn (r : esn_row) : note :=
  Note (e_pitch r) (e_onset r) (e_duration r).

Definition n_offset (n : note) : Q := (onset n + duration n)%Q.
Definition e_offset (r : esn_row) : Q := (e_onset r + e_duration r)%Q.

(** [np.delete(arr, idx, axis=0)]: the rows whose index is listed are
    dropped, whatever the order and the repetitions of the list. *)
Fixpoint delete_from {A} (i : nat) (idx : list nat) (l : list A) : list A :=
  match l with
  | [] => []
  | x :: l' =>
      if bool_decide (i ∈ idx) then delete_from (S i) idx l'
      else x :: delete_from (S i) idx l'
  end.

Definition np_delete {A} (l : list A) (idx : list nat) : list A :=
  delete_from 0 idx l.

(** ** Common.update_esn *)

Module Common.

(** The two assignments made on a matched row. *)
Definition tag_row (t : nat) (sub : Q) (n : note) (r : esn_row) : esn_row :=
  set_col t sub (set_col 2 (duration n) r).

(** The loop [for r_esn_r in range(r_esn+1, len(esn))], run over the
    rows that follow the matched one.  It returns whether it left by
    [break] (the matched row is assigned only then) and the indices
    to delete. *)
Fixpoint forward_walk (rows : list esn_row) (r_esn_r : nat) (n_off : Q)
    (del : list nat) : bool * list nat :=
  match rows with
  | [] => (false, del)
  | x :: rows' =>
      if Num.geb (e_offset x) n_off then
        if Num.gtb (e_onset x) n_off then (true, del)
        else (true, del ++ [r_esn_r])
      else forward_walk rows' (S r_esn_r) n_off (del ++ [r_esn_r])
  end.

(** Body of the loop over [r_esn], for the detected note [n]. *)
Definition update_esn_row (t : nat) (sub : Q) (n : note)
    (st : list esn_row * list nat) (r_esn : nat)
    : list esn_row * list nat :=
  let '(esn, del) := st in
  match esn !! r_esn with
  | None => st
  | Some row =>
      if Num.eqb (onset n) (e_onset row) then
        if Num.geb (e_duration row) (duration n) then
          (<[r_esn := tag_row t sub n row]> esn, del)
        else
          let '(brk, del') :=
            forward_walk (drop (S r_esn) esn) (S r_esn) (n_offset n) del in
          (if brk then <[r_esn := tag_row t sub n row]> esn else esn, del')
      else st
  end.

(** Body of the loop over [r_n]. *)
Definition update_esn_note (t : nat) (sub : Q)
    (st : list esn_row * list nat) (n : note) : list esn_row * list nat :=
  foldl (update_esn_row t sub n) st (seq 0 (length st.1)).

Definition update_esn (expression_style_note : list esn_row)
    (note_with_expression_style : list note) (tq : technique)
    (sub_technique : Q) : list esn_row :=
  let st := foldl (update_esn_note (tech_col tq) sub_technique)
              (expression_style_note, []) note_with_expression_style in
  np_delete st.1 st.2.

(** [note_2_ts] *)
Definition note_2_ts (notes : list note) : list (Q * Q) :=
  map (fun n => (onset n, n_offset n)) notes.

End Common.


(** Row access [arr[i]] where the source has checked the index before:
    the default row is never read on those paths. *)
#[global] Instance Q_inhabited : Inhabited Q := populate 0%Q.
#[global] Instance note_inhabited : Inhabited note := populate (Note 0 0 0).
#[global] Instance esn_row_inhabited : Inhabited esn_row :=
  populate (Esn 0 0 0 0 0 0 0 0 0 0 0 0).

(** [note[a:b+1, 0] = 0] *)
Definition zero_pitch (a b : nat) (nt : list note) : list note :=
  imap (fun i x =>
          if (a <=? i) && (i <=? b) then Note 0 (onset x) (duration x)
          else x) nt.

(** [arr[a:b+1, :]] *)
Definition slice {A} (a b : nat) (l : list A) : list A :=
  take (S b - a) (drop a l).

(** ** WildVibrato.identify_serrated_pattern *)

Module WildVibrato.

(** [note[n+1,1]-(note[n,1]+note[n,2]) < 0.01] *)
Definition gap_small (a b : note) : bool :=
  Num.ltb (onset b - (onset a + duration a)) (1 # 100).

(** The [while] loop that extends a run.  [k] counts the rows after
    [offset_note + 1]: the last conjunct of the loop condition,
    [offset_note+1 < note.shape[0]-1], holds exactly when [k] is not 0. *)
Fixpoint extend_run (k : nat) (nt : list note) (extent : Q)
    (offset_note : nat) (sign : Z) : nat :=
  match k with
  | 0 => offset_note
  | S k' =>
      let a := nt !!! offset_note in
      let b := nt !!! (offset_note + 1) in
      if Num.eqb (Qabs (pitch b - pitch a)) extent
         && negb (Num.sign (pitch b - pitch a) =? sign)%Z
         && gap_small a b
      then extend_run k' nt extent (offset_note + 1)
             (Num.sign (pitch b - pitch a))
      else offset_note
  end.

(** Body of the loop over [n]; the state is the working copy [note]
    and the two arrays under construction. *)
Definition serrated_step (extent : Q)
    (st : list note * list note * list note) (n : nat)
    : list note * list note * list note :=
  let '(nt, merged_notes, wild_vibrato) := st in
  let len := length nt in
  let cur := nt !!! n in
  if Num.neqb (pitch cur) 0 && (n + 1 <=? len - 1) then
    let nxt := nt !!! (n + 1) in
    if Num.eqb (pitch nxt - pitch cur) extent && gap_small cur nxt then
      let onset_note := n in
      let sign := Num.sign (pitch nxt - pitch cur) in
      let offset_note :=
        if n + 1 + 1 <=? len - 1
        then extend_run (len - 1 - (n + 1 + 1)) nt extent (n + 1) sign
        else n + 1 in
      let num_notes := offset_note - onset_note + 1 in
      let nt' := zero_pitch onset_note offset_note nt in
      if 5 <=? num_notes then
        let onset_time := onset cur in
        let last := nt !!! offset_note in
        let m := Note (pitch cur) onset_time
                   (onset last + duration last - onset_time) in
        (nt', merged_notes ++ [m], wild_vibrato ++ [m])
      else
        (nt', merged_notes ++ slice onset_note offset_note nt, wild_vibrato)
    else (nt, merged_notes ++ [cur], wild_vibrato)
  else if Num.neqb (pitch cur) 0 && (len - 1 <? n + 1) then
    (nt, merged_notes ++ [nt !!! (len - 1)], wild_vibrato)
  else st.

(** Returns [(merged_notes, wild_vibrato)]. *)
Definition identify_serrated_pattern (note_pseudo : list note) (extent : Q)
    : list note * list note :=
  let st := foldl (serrated_step extent) (note_pseudo, [], [])
              (seq 0 (length note_pseudo)) in
  (st.1.2, st.2).

End WildVibrato.

(** ** LongSlide *)

Module LongSlide.

(** Python indexing [l[i]]: a negative index counts from the end, an
    index out of range raises [IndexError] ([None]). *)
Definition py_get {A} (l : list A) (i : Z) : option A :=
  if (0 <=? i)%Z then l !! Z.to_nat i
  else if (0 <=? Z.of_nat (length l) + i)%Z
       then l !! Z.to_nat (Z.of_nat (length l) + i)
       else None.

(** The [while] loop of [quantize], run over the partitions that remain
    from [index] on. *)
Fixpoint find_index (parts : list Z) (halfstep datum : Q) (index : Z) : Z :=
  match parts with
  | [] => index
  | p :: parts' =>
      if Num.geb datum (inject_Z p - halfstep)
      then find_index parts' halfstep datum (index + 1)
      else index
  end.

(** [quantised_data[np.nonzero(quantised_data<0)[0]] = 0] *)
Definition clip_negative (v : Z) : Z := if (v <? 0)%Z then 0%Z else v.

Definition quantize (data : list Q) (partitions codebook : list Z)
    : option (list Z) :=
  p0 ← py_get partitions 0;
  p1 ← py_get partitions 1;
  let halfstep := (inject_Z (p1 - p0) / 2)%Q in
  quantised_data ←
    mapM (fun datum =>
            py_get codebook (find_index partitions halfstep datum 0 - 1))
         data;
  Some (map clip_negative quantised_data).

(** The default arguments [range(0, 90, 1)] and [range(0, 91, 1)]. *)
Definition default_partitions : list Z := seqZ 0 90.
Definition default_codebook : list Z := seqZ 0 91.

(** The [while] loop of [frame2note].  [k] counts the frames after
    [offset]; the loop reads [frame[offset+1]] before it compares
    [offset+1] with the length, so that a run that lasts to the final
    frame raises [IndexError] ([None]). *)
Fixpoint run_end (k : nat) (frame : list Z) (offset : nat) : option nat :=
  match k with
  | 0 => None
  | S k' =>
      if (frame !!! (offset + 1)%nat =? frame !!! offset)%Z
      then run_end k' frame (offset + 1)
      else Some offset
  end.

(** [frame[a:b+1] = 0] *)
Definition zero_frames (a b : nat) (frame : list Z) : list Z :=
  imap (fun i x => if (a <=? i) && (i <=? b) then 0%Z else x) frame.

(** Body of the loop over [f]; notes are [pitch, onset, duration] in
    frames. *)
Definition frame2note_step (st : option (list Z * list note)) (f : nat)
    : option (list Z * list note) :=
  '(frame, nt) ← st;
  if negb (frame !!! f =? 0)%Z then
    offset ← run_end (length frame - (f + 1)) frame f;
    let duration := offset - f + 1 in
    Some (zero_frames f offset frame,
          nt ++ [Note (inject_Z (frame !!! f)) (inject_Z (Z.of_nat f))
                   (inject_Z (Z.of_nat duration))])
  else Some (frame, nt).

Definition frame2note (quantised_melody : list Z) (hop sr : Q)
    : option (list note) :=
  '(_, nt) ← foldl frame2note_step (Some (quantised_melody, []))
               (seq 0 (length quantised_melody - 1));
  Some (map (fun n => Note (pitch n) (onset n * hop / sr)
                        (duration n * hop / sr)) nt).

(** The [while] loop of [detect] that traces a ladder.  [k] is
    [note.shape[0] - (offset_note + 2)]: the last conjunct of the loop
    condition, [offset_note+2 < note.shape[0]], holds exactly when [k]
    is not 0. *)
Fixpoint trace_ladder (k : nat) (nt : list note) (min_dur max_dur : Q)
    (offset_note : nat) : nat :=
  match k with
  | 0 => offset_note
  | S k' =>
      let a := nt !!! offset_note in
      let b := nt !!! (offset_note + 1) in
      if Num.eqb (pitch b + 1) (pitch a)
         && Num.geb (duration b) min_dur
         && Num.leb (duration b) max_dur
      then trace_ladder k' nt min_dur max_dur (offset_note + 1)
      else offset_note
  end.

(** Body of the loop over [n] in [detect]; the state is the note array
    (pitches are zeroed as ladders are consumed) and [long_slide_sec]. *)
Definition ladder_step (min_dur max_dur : Q)
    (st : list note * list (Q * Q)) (n : nat) : list note * list (Q * Q) :=
  let '(nt, long_slide_sec) := st in
  let cur := nt !!! n in
  if Num.neqb (pitch cur) 0 then
    let onset_note := n in
    let offset_note :=
      trace_ladder (length nt - (n + 2)) nt min_dur max_dur n in
    let step := offset_note - onset_note + 1 in
    let last := nt !!! offset_note in
    let sec :=
      if 5 <=? step
      then long_slide_sec ++ [(onset cur, (onset last + duration last)%Q)]
      else long_slide_sec in
    (zero_pitch onset_note offset_note nt, sec)
  else st.

(** The ladder search of [detect], from the notes that [frame2note]
    returns to [self.long_slide_sec]. *)
Definition detect_long_slide_sec (nt : list note) (min_dur max_dur : Q)
    : list (Q * Q) :=
  (foldl (ladder_step min_dur max_dur) (nt, []) (seq 0 (length nt - 1))).2.

(** [self.long_slide_sec] as [detect] computes it from the melody
    contour given to the constructor. *)
Definition long_slide_sec_of_melody (melody : list Q) (hop sr : Q)
    (max_transition_note_duration min_transition_note_duration : Q)
    : option (list (Q * Q)) :=
  quantised_melody ← quantize melody default_partitions default_codebook;
  nt ← frame2note quantised_melody hop sr;
  Some (detect_long_slide_sec nt min_transition_note_duration
          max_transition_note_duration).

End LongSlide.

(** ** SlowBend.long_CAD_pattern_detection *)

Module SlowBend.

(** The loop [for m in range(n+2, n+4)]. *)
Definition cad_inner (nt : list note) (p n : nat) (offset_pattern : Q)
    (st : list note * list nat) (m : nat) : list note * list nat :=
  let '(note_of_long_CAD, long_CAD_index) := st in
  let nm := nt !!! m in
  if Num.geb offset_pattern (onset nm)
     && Num.leb offset_pattern (onset nm + duration nm) then
    if (2 <=? m - n) && (m - n <=? 3)
       && Num.leb (Qabs (pitch (nt !!! n) - pitch nm)) 3 then
      let pitch_ := pitch (nt !!! n) in
      let onset_ := onset (nt !!! n) in
      let d0 := duration (nt !!! n) in
      let d1 := duration (nt !!! (n + 1)) in
      let d2 := duration (nt !!! (n + 2)) in
      let duration_ := (d0 + d1 + d2)%Q in
      (note_of_long_CAD ++ [Note pitch_ onset_ duration_],
       long_CAD_index ++ [p])
    else st
  else st.

(** The loop over the notes for pattern [p], with its [break]. *)
Fixpoint cad_notes (nt : list note) (p : nat) (pat : Q * Q)
    (ns : list nat) (st : list note * list nat) : list note * list nat :=
  match ns with
  | [] => st
  | n :: ns' =>
      let cur := nt !!! n in
      if Num.geb pat.1 (onset cur)
         && Num.leb pat.1 (onset cur + duration cur) then
        if length nt <=? n + 3 then st
        else cad_notes nt p pat ns'
               (foldl (cad_inner nt p n pat.2) st [n + 2; n + 3])
      else cad_notes nt p pat ns' st
  end.

(** Returns [(note_of_long_CAD, short_CAD)]. *)
Definition long_CAD_pattern_detection (nt : list note)
    (CAD_pattern : list (Q * Q)) : list note * list (Q * Q) :=
  let st :=
    foldl (fun st p =>
             cad_notes nt p (CAD_pattern !!! p) (seq 0 (length nt)) st)
          ([], []) (seq 0 (length CAD_pattern)) in
  (st.1, np_delete CAD_pattern st.2).

End SlowBend.

(** ** Classifier-result fusion *)

(** One row [start, end, label] of the classification result. *)
Record candidate := Cand { c_start : Q; c_end : Q; c_label : Z }.

#[global] Instance candidate_inhabited : Inhabited candidate :=
  populate (Cand 0 0 0).

(** [candi[0] > a[1] and candi[0] < a[1]+a[2] and
     candi[1] > b[1] and candi[1] < b[1]+b[2]] *)
Definition covers (c : candidate) (a b : esn_row) : bool :=
  Num.gtb (c_start c) (e_onset a)
  && Num.ltb (c_start c) (e_onset a + e_duration a)
  && Num.gtb (c_end c) (e_onset b)
  && Num.ltb (c_end c) (e_onset b + e_duration b).

Module BendRelease.

(** The [while] loop that chains candidates.  [k] is
    [shape[0] - (current_index_note + 1)]: the first conjunct,
    [current_index_note+1 < expression_style_note.shape[0]], holds
    exactly when [k] is not 0.  The last conjunct adds the duration of
    the current note to the onset of the next one, as the source does. *)
Fixpoint chain (k : nat) (esn : list esn_row) (result : list candidate)
    (current_index_candi current_index_note : nat) : nat * nat :=
  match k with
  | 0 => (current_index_candi, current_index_note)
  | S k' =>
      let c := result !!! (current_index_candi + 1) in
      let a := esn !!! current_index_note in
      let b := esn !!! (current_index_note + 1) in
      if (current_index_candi + 1 <? length result)
         && (c_label c =? 0)%Z
         && Num.gtb (c_start c) (e_onset a)
         && Num.ltb (c_start c) (e_onset a + e_duration a)
         && Num.gtb (c_end c) (e_onset b)
         && Num.ltb (c_end c) (e_onset b + e_duration a)
      then chain k' esn result (current_index_candi + 1)
             (current_index_note + 1)
      else (current_index_candi, current_index_note)
  end.

(** [result[a:b+1, 0:2] = 0] *)
Definition zero_window (a b : nat) (result : list candidate)
    : list candidate :=
  imap (fun i c =>
          if (a <=? i) && (i <=? b) then Cand 0 0 (c_label c) else c)
       result.

(** [np.nanmax(rows[:, c], axis=0)] over a slice that is not empty. *)
Definition col_max (c : nat) (rows : list esn_row) : Q :=
  match rows with
  | [] => 0%Q
  | r :: rows' => foldl (fun acc x => Qmax acc (col c x)) (col c r) rows'
  end.

(** [np.min(rows[:, 0])] over a slice that is not empty. *)
Definition pitch_min (rows : list esn_row) : Q :=
  match rows with
  | [] => 0%Q
  | r :: rows' => foldl (fun acc x => Qmin acc (e_pitch x)) (e_pitch r) rows'
  end.

(** Body of the loop [for n in range(index_note, current_index_note)],
    acting on the row [index_note]. *)
Definition pitch_step (esn : list esn_row) (r : esn_row) (n : nat)
    : esn_row :=
  let pitch_diff := (e_pitch (esn !!! (n + 1)%nat) - e_pitch (esn !!! n))%Q in
  if Num.gtb pitch_diff 0 then set_col 4 pitch_diff r
  else if Num.ltb pitch_diff 0 then set_col 5 (Qabs pitch_diff) r
  else r.

(** The row [index_note] after the assignments of lines 645 to 659; no
    other row is assigned. *)
Definition merged_row (esn : list esn_row)
    (index_note current_index_note : nat) : esn_row :=
  let first := esn !!! index_note in
  let last := esn !!! current_index_note in
  let r1 :=
    set_col 2 (e_onset last + e_duration last - e_onset first) first in
  let deleted := slice (index_note + 1) current_index_note esn in
  let r2 :=
    foldl (fun r c => set_col c (col_max c deleted) r) r1
      [6; 7; 8; 9; 10; 11] in
  let r3 :=
    foldl (pitch_step esn) r2
      (seq index_note (current_index_note - index_note)) in
  let r4 :=
    if Num.eqb (bend r3) 0 && Num.neqb (release r3) 0
    then set_col 3 (release r3) r3 else r3 in
  set_col 0 (pitch_min (slice index_note current_index_note esn)) r4.

(** Body of the loop over the notes, for the candidate [index_candi];
    the state is the note array, the working copy [result] and
    [note_to_be_deleted]. *)
Definition merge_note_step (index_candi : nat)
    (st : list esn_row * list candidate * list nat) (index_note : nat)
    : list esn_row * list candidate * list nat :=
  let '(esn, result, del) := st in
  if covers (result !!! index_candi) (esn !!! index_note)
       (esn !!! (index_note + 1)) then
    let '(current_index_candi, current_index_note) :=
      chain (length esn - (index_note + 1 + 1)) esn result index_candi
        (index_note + 1) in
    (<[index_note := merged_row esn index_note current_index_note]> esn,
     zero_window index_candi current_index_candi result,
     del ++ seq (index_note + 1) (current_index_note - index_note))
  else st.

(** Body of the loop over the candidates. *)
Definition merge_candi_step (st : list esn_row * list candidate * list nat)
    (index_candi : nat) : list esn_row * list candidate * list nat :=
  let candi_result := st.1.2 !!! index_candi in
  if (c_label candi_result =? 0)%Z && Num.neqb (c_start candi_result) 0 then
    foldl (merge_note_step index_candi) st (seq 0 (length st.1.1 - 1))
  else st.

Definition merge_and_update_prebend_bend_release
    (expression_style_note : list esn_row) (result_ref : list candidate)
    : list esn_row :=
  let st := foldl merge_candi_step (expression_style_note, result_ref, [])
              (seq 0 (length result_ref)) in
  np_delete st.1.1 st.2.

End BendRelease.

Module PullHammSlide.

(** [tech_index_dic]: technique name to classifier label, in the order
    in which the dictionary is iterated.  Labels are single integers,
    the [type(...) is int] branch of the source: the lookup of line 699
    compares a label with the dictionary value itself. *)
Definition tech_index := list (string * Z).

(** [tech_index_dic[k]], [None] when [has_key] is false. *)
Fixpoint dict_get (k : string) (d : tech_index) : option Z :=
  match d with
  | [] => None
  | (k', v) :: d' => if String.eqb k k' then Some v else dict_get k d'
  end.

(** [[tech_index_dic[k]]] when the key is there, [[]] otherwise. *)
Definition index_list (k : string) (d : tech_index) : list Z :=
  match dict_get k d with Some v => [v] | None => [] end.

(** [[k for k, v in tech_index_dic.iteritems() if v == label]] *)
Definition keys_of (label : Z) (d : tech_index) : list string :=
  map fst (filter (fun kv => kv.2 = label) d).

(** The guarded assignments of the pull and hammer branches, on column
    [c]. *)
Definition mark_guarded (c : nat) (i : nat) (esn : list esn_row)
    : list esn_row :=
  let a := esn !!! i in
  let b := esn !!! (i + 1) in
  if Num.eqb (col c a) 0 && Num.eqb (col c b) 0 then
    <[i + 1 := set_col c 2 b]> (<[i := set_col c 1 a]> esn)
  else if Num.neqb (col c a) 0 && Num.eqb (col c b) 0 then
    <[i + 1 := set_col c 2 b]> esn
  else esn.

(** The two assignments of the slide branch. *)
Definition mark_slide (i : nat) (esn : list esn_row) : list esn_row :=
  <[i + 1 := set_col 8 2 (esn !!! (i + 1))]>
    (<[i := set_col 8 1 (esn !!! i)]> esn).

(** Body of the loop over the notes for one candidate. *)
Definition tag_note_step (d : tech_index) (c : candidate)
    (esn : list esn_row) (index_note : nat) : list esn_row :=
  if covers c (esn !!! index_note) (esn !!! (index_note + 1)) then
    match head (keys_of (c_label c) d) with
    | Some t =>
        if String.eqb t "pull" then mark_guarded 6 index_note esn
        else if String.eqb t "hamm" then mark_guarded 7 index_note esn
        else if String.eqb t "slide" then mark_slide index_note esn
        else esn
    | None => esn
    end
  else esn.

(** Body of the loop over the candidates. *)
Definition tag_candi_step (d : tech_index) (esn : list esn_row)
    (c : candidate) : list esn_row :=
  let target_tech_index_list :=
    index_list "pull" d ++ index_list "hamm" d ++ index_list "slide" d in
  if bool_decide (c_label c ∈ target_tech_index_list)
     && Num.neqb (c_start c) 0 then
    foldl (tag_note_step d c) esn (seq 0 (length esn - 1))
  else esn.

Definition update_pull_hamm_slide (expression_style_note : list esn_row)
    (result_ref : list candidate) (tech_index_dic : tech_index)
    : list esn_row :=
  foldl (tag_candi_step tech_index_dic) expression_style_note result_ref.

End PullHammSlide.

(** * Specification-level notions and the inputs of the examples *)



(** What a row of the result of [update_esn] may differ in from the row
    it comes from: the duration and column [t]. *)
Definition same_but (t : nat) (r r' : esn_row) : Prop :=
  forall c, c <> 2 -> c <> t -> col c r' = col c r.

(** Rows [0,1), [1,2) and [4,5). *)
Definition walk_example : list esn_row :=
  [ esn_of_note (Note 60 0 1); esn_of_note (Note 62 1 1);
    esn_of_note (Note 64 4 1) ].

(** Rows [0,1), [1,2) and [3,4), technique columns at zero. *)
Definition gap_rule_esn (p0 p1 p2 : Q) : list esn_row :=
  [ esn_of_note (Note p0 0 1); esn_of_note (Note p1 1 1);
    esn_of_note (Note p2 3 1) ].

(** The fusion gap rule as the specification words it: the row that
    covers 0.5 ends at 3.5 and carries the magnitude, and the row [3,4)
    is kept. *)
Definition gap_rule_claim (out : list esn_row) (tq : technique) (sub : Q)
    : Prop :=
  (exists r, r ∈ out /\ (e_onset r <= 1 # 2)%Q /\ (e_offset r == 7 # 2)%Q
             /\ (col (tech_col tq) r == sub)%Q)
  /\ (exists r, r ∈ out /\ (e_onset r == 3)%Q /\ (e_duration r == 1)%Q).

(** [note[i+1,0] - note[i,0]] *)
Definition pitch_step_at (nt : list note) (i : nat) : Q :=
  (pitch (nt !!! (i + 1)%nat) - pitch (nt !!! i))%Q.

(** The step from row [i + 1] to row [i + 2] continues a serrated run
    whose previous step is the one from row [i] to row [i + 1]: it has
    the magnitude [extent], the other sign, and a gap below 0.01 s. *)
Definition alternates_at (nt : list note) (extent : Q) (i : nat) : bool :=
  Num.eqb (Qabs (pitch_step_at nt (i + 1))) extent
  && negb (Num.sign (pitch_step_at nt (i + 1))
           =? Num.sign (pitch_step_at nt i))%Z
  && WildVibrato.gap_small (nt !!! (i + 1)) (nt !!! (i + 2)).

(** Row [i + 1] is one step below row [i] and its duration lies in the
    window. *)
Definition descends_at (nt : list note) (lo hi : Q) (i : nat) : bool :=
  Num.eqb (pitch (nt !!! (i + 1)) + 1) (pitch (nt !!! i))
  && Num.geb (duration (nt !!! (i + 1))) lo
  && Num.leb (duration (nt !!! (i + 1))) hi.

(** Five notes 60 61 60 61 60, each starting where the previous one
    ends. *)
Definition serrated_five : list note :=
  [ Note 60 0 1; Note 61 1 1; Note 60 2 1; Note 61 3 1; Note 60 4 1 ].

(** Fifteen frames 64 64 64 63 63 63 ... 60 60 60 and one unvoiced
    frame. *)
Definition ladder_frames : list Z :=
  (replicate 3 64 ++ replicate 3 63 ++ replicate 3 62 ++ replicate 3 61
   ++ replicate 3 60 ++ [0])%Z.

(** The five notes of these frames, three frames each, at hop 256 and
    44100 Hz (17.4 ms a note). *)
Definition ladder_five : list note :=
  [ Note 64 (0 * 256 / 44100) (3 * 256 / 44100);
    Note 63 (3 * 256 / 44100) (3 * 256 / 44100);
    Note 62 (6 * 256 / 44100) (3 * 256 / 44100);
    Note 61 (9 * 256 / 44100) (3 * 256 / 44100);
    Note 60 (12 * 256 / 44100) (3 * 256 / 44100) ].

(** [x >= n[1] and x <= n[1]+n[2]], the test that places an end of a
    pattern in a note. *)
Definition within (x : Q) (n : note) : Prop :=
  (onset n <= x)%Q /\ (x <= onset n + duration n)%Q.

(** Three notes 60 61 62. *)
Definition cad_three : list note := [ Note 60 0 1; Note 61 1 1; Note 62 2 1 ].

(** Two rows, the second one with a hammer and a vibrato value. *)
Definition merge_example : list esn_row :=
  [ Esn 60 0 1 0 0 0 0 0 0 0 0 0; Esn 62 1 1 0 0 0 0 1 0 0 0 1 ].




(** Three rows [0,1), [1,1.5) and [1.5,3.5), the third one with a
    vibrato value.  The second candidate covers rows 1 and 2, but it
    ends after the onset of row 2 plus the duration of row 1, which is
    what the loop that chains candidates compares it with. *)
Definition merge_unchained_example : list esn_row :=
  [ Esn 60 0 1 0 0 0 0 0 0 0 0 0; Esn 62 1 (1 # 2) 0 0 0 0 0 0 0 0 0;
    Esn 61 (3 # 2) 2 0 0 0 0 0 0 0 0 1 ].

Definition merge_unchained_candidates : list candidate :=
  [ Cand (1 # 2) (6 # 5) 0; Cand (13 # 10) 3 0 ].

(** A marker that is set stays as it is. *)
Definition keeps (c : nat) (r r' : esn_row) : Prop :=
  ~ (col c r == 0)%Q -> col c r' = col c r.

(** A label configuration of the single-model deployment. *)
Definition tech_index_all : PullHammSlide.tech_index :=
  [ ("bend", 0%Z); ("hamm", 1%Z); ("normal", 2%Z); ("pull", 3%Z);
    ("slide", 4%Z) ].

(** Three notes of which the first two carry the start and stop
    markers of a slide (column 8). *)
Definition slid_once : list esn_row :=
  [ Esn 60 0 1 0 0 0 0 0 1 0 0 0; Esn 62 1 1 0 0 0 0 0 2 0 0 0;
    Esn 64 2 1 0 0 0 0 0 0 0 0 0 ].

(** * The rest of the module *)

(** ** Common.update_ts *)

(** One row [start, end, technique index] of the time segment array. *)
Record ts_row := Ts { ts_start : Q; ts_end : Q; ts_tech : nat }.

#[global] Instance ts_row_inhabited : Inhabited ts_row := populate (Ts 0 0 0).

(** [arr[idx]] for an array of indices. *)
Definition take_rows {A} `{Inhabited A} (l : list A) (idx : list nat)
    : list A :=
  map (fun i => l !!! i) idx.

(** [np.argsort] is a function of the keys; which of the orders that
    sort them it returns is left to numpy, so it is an argument. *)
Definition update_ts (argsort : list Q -> list nat)
    (expression_style_ts : list ts_row) (time_segment : list (Q * Q))
    (tq : technique) : list ts_row :=
  let tech_index := tech_col tq in
  let stacked :=
    expression_style_ts
    ++ map (fun seg => Ts seg.1 seg.2 tech_index) time_segment in
  take_rows stacked (argsort (map ts_start stacked)).

(** What numpy promises of [np.argsort(keys)]: the indices of the keys,
    each once, in an order in which the keys do not decrease. *)
Definition argsort_of (keys : list Q) (idx : list nat) : Prop :=
  idx ≡ₚ seq 0 (length keys)
  /\ forall i j a b, i <= j -> idx !! i = Some a -> idx !! j = Some b ->
       (keys !!! a <= keys !!! b)%Q.

(** The rows are in the order of their start times. *)
Definition sorted_by_start (ts : list ts_row) : Prop :=
  forall i j a b, i <= j -> ts !! i = Some a -> ts !! j = Some b ->
    (ts_start a <= ts_start b)%Q.

(** No two rows of the table start at the same time. *)
Definition distinct_onsets (esn : list esn_row) : Prop :=
  forall i j ri rj, i <> j -> esn !! i = Some ri -> esn !! j = Some rj ->
    ~ (e_onset ri == e_onset rj)%Q.

(** After the rows below [n]: no more merged notes than rows seen or
    consumed, the rows consumed ahead having no pitch. *)
Definition serrated_inv (len n : nat) (st : list note * list note * list note)
    : Prop :=
  length st.1.1 = len
  /\ exists hi, hi <= len
       /\ length st.1.2 <= n `max` hi
       /\ forall k, n <= k < hi -> pitch (st.1.1 !!! k) = 0%Q.

(** The integer nearest to [x], halves going up: the floor of
    [x + 1/2]. *)
Definition nearest_bin (x : Q) : Z :=
  ((2 * Qnum x + Zpos (Qden x)) / (2 * Zpos (Qden x)))%Z.

(** What [quantize] returns for one sample with its default arguments. *)
Definition default_bin (x : Q) : Z :=
  if Num.ltb x (- (1 # 2)) then 90%Z else Z.min 89 (nearest_bin x).


(** A run of frames: its pitch, its first frame and the number of its
    frames. *)
Record run := Run { run_pitch : Z; run_start : nat; run_frames : nat }.

(** The row that the loop of [frame2note] appends for a run, in
    frames. *)
Definition note_of_run_frames (r : run) : note :=
  Note (inject_Z (run_pitch r)) (inject_Z (Z.of_nat (run_start r)))
       (inject_Z (Z.of_nat (run_frames r))).

(** The row after [note[:,1]*hop/sr] and [note[:,2]*hop/sr]. *)
Definition note_of_run (hop sr : Q) (r : run) : note :=
  Note (inject_Z (run_pitch r))
       (inject_Z (Z.of_nat (run_start r)) * hop / sr)
       (inject_Z (Z.of_nat (run_frames r)) * hop / sr).

(** [r] is a run of the contour [q]: voiced, not empty, made of frames
    of [q] that all hold its pitch, followed by a frame of [q] that
    holds another value. *)
Definition is_run (q : list Z) (r : run) : Prop :=
  run_pitch r <> 0%Z /\ 0 < run_frames r
  /\ run_start r + run_frames r < length q
  /\ (forall k, run_start r <= k < run_start r + run_frames r ->
        q !! k = Some (run_pitch r))
  /\ q !! (run_start r + run_frames r) <> Some (run_pitch r).

(** Every run ends before the runs after it start. *)
Definition ordered_runs (runs : list run) : Prop :=
  forall i j a b, i < j -> runs !! i = Some a -> runs !! j = Some b ->
    run_start a + run_frames a <= run_start b.

(** What holds of the state of [frame2note] before frame [f], for the
    contour [q]: the notes are runs of [q], in order, that end by the
    frames seen or consumed; the frames consumed ahead are zero and the
    frames after them are those of [q]. *)
Definition frame2note_inv (q : list Z) (f : nat)
    (st : list Z * list note) : Prop :=
  exists runs hi,
    st.2 = map note_of_run_frames runs
    /\ length st.1 = length q
    /\ (forall k, f <= k < hi -> st.1 !!! k = 0%Z)
    /\ (forall k, f `max` hi <= k < length q -> st.1 !!! k = q !!! k)
    /\ Forall (fun r => is_run q r
                        /\ run_start r + run_frames r <= f `max` hi) runs
    /\ ordered_runs runs.

(** ** LongSlide.long_slide_sec_2_long_slide *)

(** The loop [for r_mn_r in range(r_mn+1, len(note))] over the rows that
    follow the one that holds the start of the segment: the duration it
    assigns before [break], [None] when it ends without [break]. *)
Fixpoint slide_walk (rows : list note) (long_slide_onset seg_end : Q)
    : option Q :=
  match rows with
  | [] => None
  | x :: rows' =>
      if Num.geb (onset x + duration x) seg_end then
        if Num.gtb (onset x) seg_end
        then Some (seg_end - long_slide_onset)%Q
        else Some (onset x + duration x - long_slide_onset)%Q
      else slide_walk rows' long_slide_onset seg_end
  end.

(** Body of the loop over [r_mn] for the segment [seg].  The state is
    the array [long_slide] and the local variable [long_slide_dur],
    which keeps its value from one row and one segment to the next and
    is unbound at first; reading it unbound raises ([None]). *)
Definition slide_note_step (nt : list note) (seg : Q * Q)
    (st : option (list note * option Q)) (r_mn : nat)
    : option (list note * option Q) :=
  '(long_slide, long_slide_dur) ← st;
  let cur := nt !!! r_mn in
  if Num.gtb seg.1 (onset cur) && Num.ltb seg.1 (onset cur + duration cur)
  then
    let long_slide_dur' :=
      match slide_walk (drop (S r_mn) nt) (onset cur) seg.2 with
      | Some d => Some d
      | None => long_slide_dur
      end in
    d ← long_slide_dur';
    Some (long_slide ++ [Note (pitch cur) (onset cur) d], long_slide_dur')
  else st.

Definition long_slide_sec_2_long_slide (long_slide_sec : list (Q * Q))
    (nt : list note) : option (list note) :=
  fst <$> foldl (fun st seg =>
                   foldl (slide_note_step nt seg) st (seq 0 (length nt)))
                (Some ([], None)) long_slide_sec.

(** The time [t] lies strictly inside the note [n]: the test of the loop
    over [r_mn]. *)
Definition inside (t : Q) (n : note) : Prop :=
  (onset n < t)%Q /\ (t < onset n + duration n)%Q.

(** ** SoftVibrato.detect *)

Module SoftVibrato.








End SoftVibrato.

(** ** The [detect] methods of the three rule-based detectors *)

Module Detect.

(** [WildVibrato.detect]; also returns [self.super_wild_vibrato] and
    [self.wild_vibrato]. *)
Definition wild_vibrato (argsort : list Q -> list nat) (raw_note : list note)
    : list esn_row * list ts_row * list note * list note :=
  let '(merged_notes1, super_wild_vibrato) :=
    WildVibrato.identify_serrated_pattern raw_note 2 in
  let '(merged_notes, wild_vibrato) :=
    WildVibrato.identify_serrated_pattern merged_notes1 1 in
  let esn0 := map esn_of_note merged_notes in
  let ts1 := update_ts argsort [] (Common.note_2_ts super_wild_vibrato)
               Vibrato in
  let ts2 := update_ts argsort ts1 (Common.note_2_ts wild_vibrato) Vibrato in
  let esn1 := Common.update_esn esn0 super_wild_vibrato Vibrato 2 in
  let esn2 := Common.update_esn esn1 wild_vibrato Vibrato 2 in
  (esn2, ts2, super_wild_vibrato, wild_vibrato).

(** [LongSlide.detect], from [self.quantised_melody]; [None] when
    [frame2note] or [long_slide_sec_2_long_slide] raises. *)
Definition long_slide (argsort : list Q -> list nat)
    (quantised_melody : list Z) (hop sr : Q)
    (max_transition_note_duration min_transition_note_duration : Q)
    (expression_style_note : list esn_row)
    (expression_style_ts : list ts_row)
    : option (list esn_row * list ts_row) :=
  nt ← LongSlide.frame2note quantised_melody hop sr;
  let long_slide_sec :=
    LongSlide.detect_long_slide_sec nt min_transition_note_duration
      max_transition_note_duration in
  let ts := update_ts argsort expression_style_ts long_slide_sec SlideOut in
  long_slide ← long_slide_sec_2_long_slide long_slide_sec
                 (map note_of_esn expression_style_note);
  Some (Common.update_esn expression_style_note long_slide SlideOut 1, ts).


End Detect.

(** ** The translations of classifier labels *)

Module Labels.

(** [d[k] = v]: the value of a key that is there is replaced where it
    stands, a new key is added. *)
Fixpoint dict_set (k : string) (v : Z) (d : PullHammSlide.tech_index)
    : PullHammSlide.tech_index :=
  match d with
  | [] => [(k, v)]
  | (k', v') :: d' =>
      if String.eqb k k' then (k, v) :: d' else (k', v') :: dict_set k v d'
  end.

(** [d.pop(k, None)] *)
Definition dict_pop (k : string) (d : PullHammSlide.tech_index)
    : PullHammSlide.tech_index :=
  filter (fun kv => kv.1 <> k) d.

(** One pass [cls[np.where(cls[:,-1]==v)[0],-1] = -target]. *)
Definition relabel (v target : Z) (cls : list candidate) : list candidate :=
  map (fun c => if (c_label c =? v)%Z
                then Cand (c_start c) (c_end c) (- target) else c) cls.

(** The loop [for t in items: if target.has_key(t): ...], over the
    items of the source dictionary in the order of its iteration. *)
Definition relabel_all (items target : PullHammSlide.tech_index)
    (cls : list candidate) : list candidate :=
  foldl (fun cls kv =>
           match PullHammSlide.dict_get kv.1 target with
           | Some a => relabel kv.2 a cls
           | None => cls
           end) cls items.

(** What the loop does to one label. *)
Definition label_walk (items target : PullHammSlide.tech_index) (l : Z) : Z :=
  foldl (fun l kv =>
           match PullHammSlide.dict_get kv.1 target with
           | Some a => if (l =? kv.2)%Z then (- a)%Z else l
           | None => l
           end) l items.

(** [cls[:,-1] = abs(cls[:,-1])] *)
Definition abs_labels (cls : list candidate) : list candidate :=
  map (fun c => Cand (c_start c) (c_end c) (Z.abs (c_label c))) cls.

Definition answer_tech_index_dic : PullHammSlide.tech_index :=
  [ ("bend", 4%Z); ("release", 5%Z); ("pull", 6%Z); ("hamm", 7%Z);
    ("slide", 8%Z); ("vibrato", 11%Z) ].

(** [tech_index_dic_pseudo] after the [if]; [None] is the [KeyError]
    of [tech_index_dic_pseudo['bend']]. *)
Definition pseudo_dic (tech_index_dic : PullHammSlide.tech_index)
    : option PullHammSlide.tech_index :=
  match PullHammSlide.dict_get "pull" tech_index_dic,
        PullHammSlide.dict_get "hamm" tech_index_dic with
  | Some _, None =>
      b ← PullHammSlide.dict_get "bend" tech_index_dic;
      Some (dict_pop "bend" (dict_set "release" b tech_index_dic))
  | _, _ => Some tech_index_dic
  end.

Definition convert_index_clf_cls_2_anno_tech (cls_result : list candidate)
    (tech_index_dic : PullHammSlide.tech_index) : option (list candidate) :=
  tech_index_dic_pseudo ← pseudo_dic tech_index_dic;
  Some (abs_labels
          (relabel_all tech_index_dic_pseudo answer_tech_index_dic cls_result)).

Definition convert_double_model_index_2_single_model
    (cls_result : list candidate)
    (tech_index_single tech_index_all : PullHammSlide.tech_index)
    : list candidate :=
  abs_labels (relabel_all tech_index_single tech_index_all cls_result).

(** The label that one row ends with: the target of the first item, in
    the order of the iteration, whose value is the label and whose key
    the target dictionary has; the label itself when there is none. *)
Definition translated (items target : PullHammSlide.tech_index) (l : Z) : Z :=
  match list_find (fun kv => kv.2 = l
                             /\ is_Some (PullHammSlide.dict_get kv.1 target))
          items with
  | Some (_, (k, _)) => default 0%Z (PullHammSlide.dict_get k target)
  | None => l
  end.

(** The rows of [out] are those of [cls] with the label of each one
    replaced by [f] of it. *)
Definition labels_mapped (f : Z -> Z) (cls out : list candidate) : Prop :=
  out = map (fun c => Cand (c_start c) (c_end c) (f (c_label c))) cls.

End Labels.

(** ** merge_and_update_prebend_bend_release, update_pull_hamm_slide *)


(** [r'] is [r] but for the start marker 1 or the stop marker 2 in some
    of the columns pull, hamm and slide. *)
Definition marks_only (r r' : esn_row) : Prop :=
  (forall c, c <> 6 -> c <> 7 -> c <> 8 -> col c r' = col c r)
  /\ forall c, col c r' = col c r \/ col c r' = 1%Q \/ col c r' = 2%Q.

(** The candidate [c] is one that [update_pull_hamm_slide] acts on. *)
Definition targeted (d : PullHammSlide.tech_index) (c : candidate) : Prop :=
  (PullHammSlide.dict_get "pull" d = Some (c_label c)
   \/ PullHammSlide.dict_get "hamm" d = Some (c_label c)
   \/ PullHammSlide.dict_get "slide" d = Some (c_label c))
  /\ ~ (c_start c == 0)%Q.

(** ** SlowBend.long_CAD_pattern_detection *)

(** [x] is the note that a pattern of [CAD] gives on the table [nt]:
    the pattern starts in row [n], which three rows follow, and ends in
    row [n + 2] or [n + 3], not more than three semitones from row [n];
    [x] has the pitch and the onset of row [n] and the durations of rows
    [n], [n + 1] and [n + 2] together. *)
Definition cad_note_of (nt : list note) (CAD : list (Q * Q)) (x : note)
    : Prop :=
  exists n m pat,
    n + 3 < length nt /\ pat ∈ CAD
    /\ within pat.1 (nt !!! n)
    /\ (m = n + 2 \/ m = n + 3) /\ within pat.2 (nt !!! m)
    /\ (Qabs (pitch (nt !!! n) - pitch (nt !!! m)) <= 3)%Q
    /\ x = Note (pitch (nt !!! n)) (onset (nt !!! n))
             (duration (nt !!! n) + duration (nt !!! (n + 1)%nat)
              + duration (nt !!! (n + 2)%nat)).

(** * Properties *)

(** ** Comparisons *)

Lemma num_eqb_true x y : Num.eqb x y = true <-> (x == y)%Q.
Proof. apply Qeq_bool_iff. Qed.

Lemma num_eqb_false x y : Num.eqb x y = false <-> ~ (x == y)%Q.
Proof.
  unfold Num.eqb. split.
  - intros H E. apply Qeq_bool_iff in E. congruence.
  - intros H. destruct (Qeq_bool x y) eqn:E; [|reflexivity].
    apply Qeq_bool_iff in E. contradiction.
Qed.

Lemma num_leb_true x y : Num.leb x y = true <-> (x <= y)%Q.
Proof. apply Qle_bool_iff. Qed.

Lemma num_leb_false x y : Num.leb x y = false <-> (y < x)%Q.
Proof.
  unfold Num.leb. split.
  - intros H. apply Qnot_le_lt. intros L.
    apply Qle_bool_iff in L. congruence.
  - intros H. destruct (Qle_bool x y) eqn:E; [|reflexivity].
    apply Qle_bool_iff in E. exfalso. exact (Qlt_not_le _ _ H E).
Qed.

Lemma num_geb_true x y : Num.geb x y = true <-> (y <= x)%Q.
Proof. apply num_leb_true. Qed.

Lemma num_geb_false x y : Num.geb x y = false <-> (x < y)%Q.
Proof. apply num_leb_false. Qed.

Lemma num_ltb_true x y : Num.ltb x y = true <-> (x < y)%Q.
Proof. unfold Num.ltb. rewrite negb_true_iff. apply (num_leb_false y x). Qed.

Lemma num_ltb_false x y : Num.ltb x y = false <-> (y <= x)%Q.
Proof. unfold Num.ltb. rewrite negb_false_iff. apply (num_leb_true y x). Qed.

Lemma num_gtb_true x y : Num.gtb x y = true <-> (y < x)%Q.
Proof. apply (num_ltb_true y x). Qed.


Lemma num_neqb_true x y : Num.neqb x y = true <-> ~ (x == y)%Q.
Proof. unfold Num.neqb. rewrite negb_true_iff. apply num_eqb_false. Qed.

Lemma num_neqb_false x y : Num.neqb x y = false <-> (x == y)%Q.
Proof. unfold Num.neqb. rewrite negb_false_iff. apply num_eqb_true. Qed.

(** ** Rows *)

Lemma col_set_col_eq c v r : c < 12 -> col c (set_col c v r) = v.
Proof.
  intros H. destruct r.
  do 12 (destruct c as [|c]; [reflexivity|]). lia.
Qed.

Lemma col_set_col_ne c c' v r : c <> c' -> col c' (set_col c v r) = col c' r.
Proof.
  intros H. destruct r.
  do 12 (destruct c as [|c];
         [do 12 (destruct c' as [|c']; [first [reflexivity | congruence]|]);
          reflexivity|]).
  reflexivity.
Qed.

(** ** [np.delete] *)

Lemma delete_from_nil {A} (l : list A) i : delete_from i [] l = l.
Proof.
  revert i. induction l as [|x l IH]; intros i; cbn [delete_from]; [reflexivity|].
  rewrite bool_decide_eq_false_2 by apply not_elem_of_nil.
  by rewrite IH.
Qed.

Lemma delete_from_length {A} (l : list A) i idx :
  length (delete_from i idx l) <= length l.
Proof.
  revert i. induction l as [|x l IH]; intros i; cbn [delete_from length]; [lia|].
  specialize (IH (S i)). case_bool_decide; cbn [length]; lia.
Qed.

Lemma delete_from_sublist {A} (l : list A) i idx :
  sublist (delete_from i idx l) l.
Proof.
  revert i. induction l as [|x l IH]; intros i; cbn [delete_from]; [constructor|].
  case_bool_decide; [apply sublist_cons|apply sublist_skip]; apply IH.
Qed.

Lemma delete_from_Forall2 {A B} (R : A -> B -> Prop) l1 l2 i idx :
  Forall2 R l1 l2 ->
  Forall2 R (delete_from i idx l1) (delete_from i idx l2).
Proof.
  intros H. revert i. induction H as [|x y l1 l2 Hxy H IH]; intros i; cbn [delete_from].
  - constructor.
  - case_bool_decide; [apply IH|constructor; [exact Hxy|apply IH]].
Qed.



Lemma foldl_id {A B} (f : A -> B -> A) (a : A) (l : list B) :
  (forall x, x ∈ l -> f a x = a) -> foldl f a l = a.
Proof.
  induction l as [|y l IH]; intros H; simpl; [reflexivity|].
  rewrite H by apply list_elem_of_here.
  apply IH. intros x Hx. apply H. by apply list_elem_of_further.
Qed.

(** ** Common.update_esn *)

Section update_esn.
Import Common.
Variables (t : nat) (sub : Q).

(** A row whose onset differs from the detected onset is skipped. *)
Lemma update_esn_row_skip n esn del k :
  (forall rk, esn !! k = Some rk -> ~ (onset n == e_onset rk)%Q) ->
  update_esn_row t sub n (esn, del) k = (esn, del).
Proof.
  intros H. unfold update_esn_row.
  destruct (esn !! k) as [rk|] eqn:E; [|reflexivity].
  specialize (H rk eq_refl). apply num_eqb_false in H. by rewrite H.
Qed.



(** One pass of the inner loop over a table in which no onset matches. *)
Lemma update_esn_note_unmatched n esn del :
  (forall r, r ∈ esn -> ~ (onset n == e_onset r)%Q) ->
  update_esn_note t sub (esn, del) n = (esn, del).
Proof.
  intros H. unfold update_esn_note. apply foldl_id. intros k _.
  apply update_esn_row_skip. intros rk Hk. apply H.
  by apply list_elem_of_lookup_2 in Hk.
Qed.

Lemma update_esn_notes_unmatched notes esn del :
  (forall n r, n ∈ notes -> r ∈ esn -> ~ (onset n == e_onset r)%Q) ->
  foldl (update_esn_note t sub) (esn, del) notes = (esn, del).
Proof.
  intros H. apply foldl_id. intros n Hn.
  apply update_esn_note_unmatched. intros r Hr. by apply H.
Qed.




Lemma same_but_tag n r r' :
  same_but t r r' -> same_but t r (tag_row t sub n r').
Proof.
  intros H c H2 Ht. unfold tag_row.
  rewrite !col_set_col_ne by congruence. by apply H.
Qed.

Lemma Forall2_same_but_insert (l0 l : list esn_row) k n rk :
  Forall2 (same_but t) l0 l -> l !! k = Some rk ->
  Forall2 (same_but t) l0 (<[k := tag_row t sub n rk]> l).
Proof.
  intros H Hk.
  destruct (Forall2_lookup_r _ _ _ _ _ H Hk) as (r0 & H0 & HR).
  rewrite <- (list_insert_id l0 k r0 H0).
  apply Forall2_insert; [exact H|]. by apply same_but_tag.
Qed.

Lemma update_esn_row_same_but n l0 esn del k :
  Forall2 (same_but t) l0 esn ->
  Forall2 (same_but t) l0 (update_esn_row t sub n (esn, del) k).1.
Proof.
  intros H. unfold update_esn_row.
  destruct (esn !! k) as [rk|] eqn:Hk; [|exact H].
  destruct (Num.eqb _ _); [|exact H].
  destruct (Num.geb _ _); simpl.
  - by apply Forall2_same_but_insert.
  - destruct (forward_walk _ _ _ _) as [[] del']; simpl;
      [by apply Forall2_same_but_insert|exact H].
Qed.

Lemma update_esn_rows_same_but n l0 ks st :
  Forall2 (same_but t) l0 st.1 ->
  Forall2 (same_but t) l0 (foldl (update_esn_row t sub n) st ks).1.
Proof.
  revert st. induction ks as [|k ks IH]; intros [esn del] H; simpl; [exact H|].
  apply IH. by apply update_esn_row_same_but.
Qed.

Lemma update_esn_notes_same_but l0 notes st :
  Forall2 (same_but t) l0 st.1 ->
  Forall2 (same_but t) l0 (foldl (update_esn_note t sub) st notes).1.
Proof.
  revert st. induction notes as [|n notes IH]; intros st H; simpl; [exact H|].
  apply IH. unfold update_esn_note. by apply update_esn_rows_same_but.
Qed.

Lemma same_but_refl_all (l : list esn_row) : Forall2 (same_but t) l l.
Proof. apply Forall_Forall2_diag, Forall_forall. by intros r _ c _ _. Qed.

End update_esn.

Lemma update_esn_unmatched esn notes tq sub :
  (forall n r, n ∈ notes -> r ∈ esn -> ~ (onset n == e_onset r)%Q) ->
  Common.update_esn esn notes tq sub = esn.
Proof.
  intros H. unfold Common.update_esn.
  rewrite update_esn_notes_unmatched by exact H.
  apply delete_from_nil.
Qed.



(** C2.  Amended: the detected note [0.5, 3.5) starts at the onset of
    no row of the table [0,1), [1,2), [3,4), so the fusion returns the
    table as it is: no row is retagged or resized, and the row [3,4) is
    kept. *)
Theorem update_esn_gap_rule_unchanged p0 p1 p2 pd tq sub :
  Common.update_esn (gap_rule_esn p0 p1 p2) [Note pd (1 # 2) 3] tq sub
  = gap_rule_esn p0 p1 p2.
Proof.
  apply update_esn_unmatched. intros n r Hn Hr.
  apply list_elem_of_singleton in Hn as ->.
  unfold gap_rule_esn in Hr.
  repeat (apply elem_of_cons in Hr as [->|Hr]); [by vm_compute..|].
  by apply elem_of_nil in Hr.
Qed.

(** The gap rule of the specification fails on its own example: no row
    of the result ends at 3.5. *)
Lemma update_esn_gap_rule_counterexample :
  ~ gap_rule_claim
      (Common.update_esn (gap_rule_esn 60 62 64) [Note 60 (1 # 2) 3] Vibrato 2)
      Vibrato 2.
Proof.
  intros [(r & Hr & _ & Hend & _) _].
  vm_compute in Hr.
  repeat (apply elem_of_cons in Hr as [->|Hr]); [by vm_compute in Hend..|].
  by apply elem_of_nil in Hr.
Qed.

(** C8.  Detections whose onset is the onset of no row leave the table
    as it is. *)
Theorem update_esn_unmatched_noop esn notes tq sub :
  (forall n r, n ∈ notes -> r ∈ esn -> ~ (onset n == e_onset r)%Q) ->
  Common.update_esn esn notes tq sub = esn.
Proof. apply update_esn_unmatched. Qed.

Lemma update_esn_unmatched_noop_witness :
  Common.update_esn walk_example [Note 61 (1 # 4) 2; Note 65 5 1] SlideOut 1
  = walk_example.
Proof.
  apply update_esn_unmatched_noop. intros n r Hn Hr.
  repeat (apply elem_of_cons in Hn as [->|Hn]);
    [| |by apply elem_of_nil in Hn];
    (repeat (apply elem_of_cons in Hr as [->|Hr]);
     [by vm_compute..|by apply elem_of_nil in Hr]).
Defined.

(** C10.  The result has no more rows than the table, and its rows
    are, in order, rows of the table in which at most the duration and
    the column of the given technique differ: pitch and onset are the
    input ones. *)
Theorem update_esn_frame esn notes tq sub :
  let out := Common.update_esn esn notes tq sub in
  length out <= length esn
  /\ exists kept,
       sublist kept esn
       /\ Forall2 (fun r r' =>
                     e_pitch r' = e_pitch r /\ e_onset r' = e_onset r
                     /\ forall c, c <> 2 -> c <> tech_col tq ->
                                  col c r' = col c r) kept out.
Proof.
  intros out. unfold out, Common.update_esn.
  set (st := foldl _ _ _).
  assert (Forall2 (same_but (tech_col tq)) esn st.1) as Hinv.
  { apply update_esn_notes_same_but, same_but_refl_all. }
  split.
  - rewrite (Forall2_length _ _ _ Hinv). apply delete_from_length.
  - exists (np_delete esn st.2). split; [apply delete_from_sublist|].
    apply (delete_from_Forall2 _ _ _ 0 st.2) in Hinv.
    eapply Forall2_impl; [exact Hinv|].
    intros r r' H. split; [|split; [|exact H]].
    + apply (H 0); [lia|destruct tq; simpl; lia].
    + apply (H 1); [lia|destruct tq; simpl; lia].
Qed.

(** ** WildVibrato.identify_serrated_pattern *)

Lemma zero_pitch_length a b nt : length (zero_pitch a b nt) = length nt.
Proof. apply length_imap. Qed.

Lemma extend_run_bound k nt extent o s :
  WildVibrato.extend_run k nt extent o s <= o + k.
Proof.
  revert o s. induction k as [|k IH]; intros o s; simpl; [lia|].
  destruct (_ && _); [|lia]. specialize (IH (o + 1) (Num.sign
    (pitch (nt !!! (o + 1)) - pitch (nt !!! o)))). lia.
Qed.

(** A run never takes in the last row of the array, unless it is the
    second row of the run. *)
Lemma serrated_step_short extent nt merged n :
  n < length nt -> length nt <= 5 ->
  exists nt' merged',
    WildVibrato.serrated_step extent (nt, merged, []) n = (nt', merged', [])
    /\ length nt' = length nt.
Proof.
  intros Hn Hlen. unfold WildVibrato.serrated_step.
  destruct (_ && (n + 1 <=? _)); [|destruct (_ && _); eauto].
  destruct (_ && _); [|eauto].
  assert ((5 <=? (if n + 1 + 1 <=? length nt - 1
                  then WildVibrato.extend_run (length nt - 1 - (n + 1 + 1))
                         nt extent (n + 1)
                         (Num.sign (pitch (nt !!! (n + 1)) - pitch (nt !!! n)))
                  else n + 1) - n + 1) = false) as ->.
  { apply Nat.leb_gt. destruct (n + 1 + 1 <=? length nt - 1) eqn:E; [|lia].
    apply Nat.leb_le in E.
    pose proof (extend_run_bound (length nt - 1 - (n + 1 + 1)) nt extent
                  (n + 1)
                  (Num.sign (pitch (nt !!! (n + 1)) - pitch (nt !!! n)))).
    lia. }
  eexists _, _. split; [reflexivity|apply zero_pitch_length].
Qed.

Lemma serrated_steps_short extent ns nt merged :
  (forall n, n ∈ ns -> n < length nt) -> length nt <= 5 ->
  (foldl (WildVibrato.serrated_step extent) (nt, merged, []) ns).2 = [].
Proof.
  revert nt merged. induction ns as [|n ns IH]; intros nt merged Hns Hlen;
    cbn [foldl]; [reflexivity|].
  destruct (serrated_step_short extent nt merged n) as (nt' & merged' & -> & Hl);
    [apply Hns, list_elem_of_here|exact Hlen|].
  apply IH; [|lia]. intros k Hk. rewrite Hl. by apply Hns, list_elem_of_further.
Qed.

(** No array of five rows or fewer yields a vibrato note, whatever the
    rows are. *)
Lemma identify_serrated_pattern_short nt extent :
  length nt <= 5 -> (WildVibrato.identify_serrated_pattern nt extent).2 = [].
Proof.
  intros H. unfold WildVibrato.identify_serrated_pattern.
  apply serrated_steps_short; [|exact H].
  intros n Hn. apply elem_of_seq in Hn. lia.
Qed.

(** C3.  On the run of exactly five notes 60 61 60 61 60, each one
    starting where the previous one ends, with extent 1, the source
    merges nothing: the five notes are returned as they are and no
    vibrato note is registered, because the extension of a run stops one
    row before the end of the array. *)
Theorem identify_serrated_pattern_five_at_end :
  WildVibrato.identify_serrated_pattern serrated_five 1 = (serrated_five, []).
Proof. reflexivity. Qed.

(** The same run followed by one more note is merged. *)
Lemma identify_serrated_pattern_five_then_one :
  WildVibrato.identify_serrated_pattern (serrated_five ++ [Note 70 5 1]) 1
  = ([Note 60 0 5; Note 70 5 1], [Note 60 0 5]).
Proof. reflexivity. Qed.

(** A run of five that starts with a descending step is not merged
    either, although a sixth note follows. *)
Lemma identify_serrated_pattern_descending_first :
  let nt := [ Note 61 0 1; Note 60 1 1; Note 61 2 1; Note 60 3 1;
              Note 61 4 1; Note 70 5 1 ] in
  WildVibrato.identify_serrated_pattern nt 1 = (nt, []).
Proof. reflexivity. Qed.

(** A run of exactly four notes is copied through. *)
Lemma identify_serrated_pattern_four :
  let nt := [ Note 60 0 1; Note 61 1 1; Note 60 2 1; Note 61 3 1;
              Note 70 4 1 ] in
  WildVibrato.identify_serrated_pattern nt 1 = (nt, []).
Proof. reflexivity. Qed.

(** ** LongSlide *)

Lemma trace_ladder_bound k nt lo hi o :
  LongSlide.trace_ladder k nt lo hi o <= o + k.
Proof.
  revert o. induction k as [|k IH]; intros o; simpl; [lia|].
  destruct (_ && _); [|lia]. specialize (IH (o + 1)). lia.
Qed.

Lemma ladder_step_short lo hi nt n :
  length nt <= 5 ->
  exists nt', LongSlide.ladder_step lo hi (nt, []) n = (nt', [])
              /\ length nt' = length nt.
Proof.
  intros Hlen. unfold LongSlide.ladder_step.
  destruct (Num.neqb _ _); [|eauto].
  pose proof (trace_ladder_bound (length nt - (n + 2)) nt lo hi n) as Hb.
  assert ((5 <=? LongSlide.trace_ladder (length nt - (n + 2)) nt lo hi n
                 - n + 1) = false) as -> by (apply Nat.leb_gt; lia).
  eexists. split; [reflexivity|apply zero_pitch_length].
Qed.

Lemma ladder_steps_short lo hi ns nt :
  length nt <= 5 -> (foldl (LongSlide.ladder_step lo hi) (nt, []) ns).2 = [].
Proof.
  revert nt. induction ns as [|n ns IH]; intros nt Hlen; cbn [foldl]; [reflexivity|].
  destruct (ladder_step_short lo hi nt n Hlen) as (nt' & -> & Hl).
  apply IH. lia.
Qed.

(** No array of five notes or fewer yields a slide-out segment. *)
Lemma detect_long_slide_sec_short nt lo hi :
  length nt <= 5 -> LongSlide.detect_long_slide_sec nt lo hi = [].
Proof. intros H. by apply ladder_steps_short. Qed.

(** C4.  The frames 64 64 64 63 63 63 62 62 62 61 61 61 60 60 60 0
    are reconstructed as a ladder of exactly five notes, each one step
    below the previous one and 17.4 ms long, inside the default window
    [0.015, 0.09]; the source registers no slide-out segment for it: the
    trace stops one note before the end of the array and counts four
    steps. *)
Theorem detect_long_slide_sec_five_at_end :
  LongSlide.frame2note ladder_frames 256 44100 = Some ladder_five
  /\ LongSlide.detect_long_slide_sec ladder_five (15 # 1000) (9 # 100) = [].
Proof. split; reflexivity. Qed.

(** The same ladder followed by one more note is registered, from the
    first onset to the last offset. *)
Lemma detect_long_slide_sec_five_then_one :
  LongSlide.detect_long_slide_sec (ladder_five ++ [Note 70 1 1])
    (15 # 1000) (9 # 100)
  = [(0 * 256 / 44100, 12 * 256 / 44100 + 3 * 256 / 44100)%Q].
Proof. reflexivity. Qed.

(** A ladder of exactly four notes registers nothing. *)
Lemma detect_long_slide_sec_four :
  LongSlide.detect_long_slide_sec
    (take 4 ladder_five ++ [Note 70 1 1; Note 71 2 1]) (15 # 1000) (9 # 100)
  = [].
Proof. reflexivity. Qed.

(** ** Runs and ladders away from the end of the array *)

(** The run extends over the [m] steps that alternate and stops at the
    first one that does not, or where the bound of the loop is met. *)
Lemma extend_run_exact nt extent m : forall i k,
  (forall j, j < m -> alternates_at nt extent (i + j) = true) ->
  m <= k ->
  (m < k -> alternates_at nt extent (i + m) = false) ->
  WildVibrato.extend_run k nt extent (i + 1) (Num.sign (pitch_step_at nt i))
  = i + 1 + m.
Proof.
  induction m as [|m IH]; intros i k Hlinks Hk Hstop.
  - destruct k as [|k]; [simpl; lia|]. cbn [WildVibrato.extend_run].
    specialize (Hstop ltac:(lia)). rewrite Nat.add_0_r in Hstop.
    unfold alternates_at, pitch_step_at in Hstop.
    replace (i + 2) with (i + 1 + 1) in Hstop by lia.
    unfold pitch_step_at. rewrite Hstop. lia.
  - destruct k as [|k]; [lia|]. cbn [WildVibrato.extend_run].
    pose proof (Hlinks 0 ltac:(lia)) as H0. rewrite Nat.add_0_r in H0.
    unfold alternates_at, pitch_step_at in H0.
    replace (i + 2) with (i + 1 + 1) in H0 by lia.
    unfold pitch_step_at at 1. rewrite H0.
    change (pitch (nt !!! (i + 1 + 1)%nat) - pitch (nt !!! (i + 1)%nat))%Q
      with (pitch_step_at nt (i + 1)).
    rewrite (IH (i + 1) k); [lia| |lia|].
    + intros j Hj. replace (i + 1 + j) with (i + S j) by lia.
      apply Hlinks. lia.
    + intros Hlt. replace (i + 1 + m) with (i + S m) by lia.
      apply Hstop. lia.
Qed.

(** A run of [m + 2] notes, five or more, that starts at row [n] with
    a rising step and is followed by at least one more row, is merged
    into one note that is also registered as vibrato. *)
Lemma serrated_step_merges nt merged wild extent n m :
  ~ (pitch (nt !!! n) == 0)%Q ->
  n + m + 2 < length nt ->
  3 <= m ->
  (pitch_step_at nt n == extent)%Q ->
  WildVibrato.gap_small (nt !!! n) (nt !!! (n + 1)) = true ->
  (forall j, j < m -> alternates_at nt extent (n + j) = true) ->
  alternates_at nt extent (n + m) = false ->
  let first := nt !!! n in
  let last := nt !!! (n + 1 + m) in
  let merged_note :=
    Note (pitch first) (onset first)
      (onset last + duration last - onset first) in
  WildVibrato.serrated_step extent (nt, merged, wild) n
  = (zero_pitch n (n + 1 + m) nt, merged ++ [merged_note],
     wild ++ [merged_note]).
Proof.
  intros Hp Hlen Hm Hstep Hgap Hlinks Hstop first last merged_note.
  unfold WildVibrato.serrated_step.
  apply num_neqb_true in Hp. rewrite Hp.
  assert ((n + 1 <=? length nt - 1) = true) as -> by (apply Nat.leb_le; lia).
  cbn [andb].
  apply num_eqb_true in Hstep. unfold pitch_step_at in Hstep.
  rewrite Hstep, Hgap. cbn [andb].
  assert ((n + 1 + 1 <=? length nt - 1) = true) as ->
    by (apply Nat.leb_le; lia).
  change (pitch (nt !!! (n + 1)%nat) - pitch (nt !!! n))%Q
    with (pitch_step_at nt n).
  rewrite (extend_run_exact nt extent m n); [|exact Hlinks|lia|by intros _].
  assert ((5 <=? n + 1 + m - n + 1) = true) as -> by (apply Nat.leb_le; lia).
  reflexivity.
Qed.

(** A run of [m + 2] notes, four or fewer, that ends before the last
    row is copied through and registers no vibrato. *)
Lemma serrated_step_copies nt merged wild extent n m :
  ~ (pitch (nt !!! n) == 0)%Q ->
  n + m + 2 < length nt ->
  m <= 2 ->
  (pitch_step_at nt n == extent)%Q ->
  WildVibrato.gap_small (nt !!! n) (nt !!! (n + 1)) = true ->
  (forall j, j < m -> alternates_at nt extent (n + j) = true) ->
  alternates_at nt extent (n + m) = false ->
  WildVibrato.serrated_step extent (nt, merged, wild) n
  = (zero_pitch n (n + 1 + m) nt, merged ++ slice n (n + 1 + m) nt, wild).
Proof.
  intros Hp Hlen Hm Hstep Hgap Hlinks Hstop.
  unfold WildVibrato.serrated_step.
  apply num_neqb_true in Hp. rewrite Hp.
  assert ((n + 1 <=? length nt - 1) = true) as -> by (apply Nat.leb_le; lia).
  cbn [andb].
  apply num_eqb_true in Hstep. unfold pitch_step_at in Hstep.
  rewrite Hstep, Hgap. cbn [andb].
  change (pitch (nt !!! (n + 1)%nat) - pitch (nt !!! n))%Q
    with (pitch_step_at nt n).
  assert ((n + 1 + 1 <=? length nt - 1) = true) as ->
    by (apply Nat.leb_le; lia).
  rewrite (extend_run_exact nt extent m n); [|exact Hlinks|lia|by intros _].
  assert ((5 <=? n + 1 + m - n + 1) = false) as -> by (apply Nat.leb_gt; lia).
  reflexivity.
Qed.

(** ** The ladder trace *)

Lemma trace_ladder_exact nt lo hi m : forall i k,
  (forall j, j < m -> descends_at nt lo hi (i + j) = true) ->
  m <= k ->
  (m < k -> descends_at nt lo hi (i + m) = false) ->
  LongSlide.trace_ladder k nt lo hi i = i + m.
Proof.
  induction m as [|m IH]; intros i k Hlinks Hk Hstop.
  - destruct k as [|k]; [simpl; lia|]. cbn [LongSlide.trace_ladder].
    specialize (Hstop ltac:(lia)). rewrite Nat.add_0_r in Hstop.
    unfold descends_at in Hstop. rewrite Hstop. lia.
  - destruct k as [|k]; [lia|]. cbn [LongSlide.trace_ladder].
    pose proof (Hlinks 0 ltac:(lia)) as H0. rewrite Nat.add_0_r in H0.
    unfold descends_at in H0. rewrite H0.
    rewrite (IH (i + 1) k); [lia| |lia|].
    + intros j Hj. replace (i + 1 + j) with (i + S j) by lia.
      apply Hlinks. lia.
    + intros Hlt. replace (i + 1 + m) with (i + S m) by lia.
      apply Hstop. lia.
Qed.

(** A ladder of [m + 1] notes, five or more, that starts at the
    non-zero note [n] and is followed by at least one more note,
    registers the segment from the first onset to the last offset. *)
Lemma ladder_step_registers nt sec lo hi n m :
  ~ (pitch (nt !!! n) == 0)%Q ->
  n + m + 1 < length nt ->
  4 <= m ->
  (forall j, j < m -> descends_at nt lo hi (n + j) = true) ->
  descends_at nt lo hi (n + m) = false ->
  let last := nt !!! (n + m) in
  LongSlide.ladder_step lo hi (nt, sec) n
  = (zero_pitch n (n + m) nt,
     sec ++ [(onset (nt !!! n), (onset last + duration last)%Q)]).
Proof.
  intros Hp Hlen Hm Hlinks Hstop last.
  unfold LongSlide.ladder_step.
  apply num_neqb_true in Hp. rewrite Hp.
  rewrite (trace_ladder_exact nt lo hi m n); [|exact Hlinks|lia|by intros _].
  assert ((5 <=? n + m - n + 1) = true) as -> by (apply Nat.leb_le; lia).
  reflexivity.
Qed.

(** A ladder of [m + 1] notes, four or fewer, registers nothing. *)
Lemma ladder_step_ignores nt sec lo hi n m :
  ~ (pitch (nt !!! n) == 0)%Q ->
  m <= 3 ->
  (forall j, j < m -> descends_at nt lo hi (n + j) = true) ->
  descends_at nt lo hi (n + m) = false ->
  (LongSlide.ladder_step lo hi (nt, sec) n).2 = sec.
Proof.
  intros Hp Hm Hlinks Hstop.
  unfold LongSlide.ladder_step.
  apply num_neqb_true in Hp. rewrite Hp.
  set (k := length nt - (n + 2)).
  assert (LongSlide.trace_ladder k nt lo hi n <= n + m) as Hle.
  { destruct (decide (m <= k)) as [Hmk|Hmk].
    - rewrite (trace_ladder_exact nt lo hi m n); [lia|exact Hlinks|lia|].
      by intros _.
    - pose proof (trace_ladder_bound k nt lo hi n). lia. }
  assert ((5 <=? LongSlide.trace_ladder k nt lo hi n - n + 1) = false) as ->
    by (apply Nat.leb_gt; lia).
  reflexivity.
Qed.

(** ** LongSlide.quantize *)

Section quantize.
Import LongSlide.

Lemma default_halfstep : (inject_Z (1 - 0) / 2 == 1 # 2)%Q.
Proof. reflexivity. Qed.

(** The index loop over the partitions [a, a+1, ...]: the sample
    passes the first [m] boundaries and fails the next one, if any. *)
Lemma find_index_seqZ (n m : nat) (a : Z) (h d : Q) (idx : Z) :
  m <= n ->
  (forall p, (a <= p < a + Z.of_nat m)%Z -> (inject_Z p - h <= d)%Q) ->
  (m < n -> (d < inject_Z (a + Z.of_nat m) - h)%Q) ->
  find_index (seqZ a (Z.of_nat n)) h d idx = (idx + Z.of_nat m)%Z.
Proof.
  revert m a idx. induction n as [|n IH]; intros m a idx Hm Hpass Hfail.
  - assert (m = 0) as -> by lia. simpl. lia.
  - rewrite seqZ_cons by lia. cbn [find_index].
    destruct m as [|m].
    + assert (Num.geb d (inject_Z a - h) = false) as ->.
      { apply num_geb_false. rewrite <- (Z.add_0_r a) at 1. apply Hfail. lia. }
      lia.
    + assert (Num.geb d (inject_Z a - h) = true) as ->.
      { apply num_geb_true. apply Hpass. lia. }
      replace (Z.pred (Z.of_nat (S n))) with (Z.of_nat n) by lia.
      rewrite (IH m); [lia|lia| |].
      * intros p Hp. apply Hpass. lia.
      * intros Hlt. replace (a + Z.of_nat (S m))%Z
          with (Z.succ a + Z.of_nat m)%Z in Hfail by lia. apply Hfail. lia.
Qed.

Lemma quantize_default_one d v :
  py_get default_codebook
    (find_index default_partitions (inject_Z (1 - 0) / 2) d 0 - 1) = Some v ->
  quantize [d] default_partitions default_codebook = Some [clip_negative v].
Proof.
  intros H. unfold quantize.
  change (py_get default_partitions 0) with (Some 0%Z).
  change (py_get default_partitions 1) with (Some 1%Z).
  cbn [mbind option_bind mapM mret option_ret].
  rewrite H. reflexivity.
Qed.

(** A sample at or above the lowest boundary [-0.5] gets the codebook
    value of the last boundary [k - 0.5] it reaches. *)
Lemma quantize_in_range d k :
  (0 <= k <= 89)%Z ->
  (inject_Z k - (1 # 2) <= d)%Q ->
  ((k < 89)%Z -> (d < inject_Z (k + 1) - (1 # 2))%Q) ->
  quantize [d] default_partitions default_codebook = Some [k].
Proof.
  intros Hk Hlo Hhi.
  rewrite (quantize_default_one d k);
    [unfold clip_negative; destruct (Z.ltb_spec k 0); [lia|reflexivity]|].
  unfold default_partitions. change 90%Z with (Z.of_nat 90).
  rewrite (find_index_seqZ 90 (Z.to_nat (k + 1))); [|lia|..].
  - replace (0 + Z.of_nat (Z.to_nat (k + 1)) - 1)%Z with k by lia.
    unfold py_get. destruct (Z.leb_spec 0 k) as [_|]; [|lia].
    unfold default_codebook. rewrite lookup_seqZ. split; [|lia].
    f_equal. lia.
  - intros p Hp. rewrite default_halfstep.
    apply Qle_trans with (inject_Z k - (1 # 2))%Q; [|exact Hlo].
    apply Qplus_le_l. rewrite <- Zle_Qle. lia.
  - intros Hlt. rewrite default_halfstep.
    replace (0 + Z.of_nat (Z.to_nat (k + 1)))%Z with (k + 1)%Z by lia.
    apply Hhi. lia.
Qed.

(** A sample below the lowest boundary passes no boundary: the index
    is [-1], which reads the last codebook entry. *)
Lemma quantize_below_lowest d :
  (d < - (1 # 2))%Q ->
  quantize [d] default_partitions default_codebook = Some [90%Z].
Proof.
  intros Hd. apply (quantize_default_one d 90).
  unfold default_partitions. change 90%Z with (Z.of_nat 90).
  rewrite (find_index_seqZ 90 0); [reflexivity|lia|..].
  - intros p Hp. lia.
  - intros _. rewrite default_halfstep. exact Hd.
Qed.

End quantize.

(** C9.  The sample [-1] lies below the lowest boundary [-0.5]; the
    source returns 90 for it, the last codebook value, and not 0: the
    index [-1] that the loop leaves is read from the end of the codebook,
    and the clipping that follows only rewrites negative codebook
    values. *)
Theorem quantize_below_lowest_boundary :
  LongSlide.quantize [(-1)%Q] LongSlide.default_partitions
    LongSlide.default_codebook = Some [90%Z].
Proof. reflexivity. Qed.

(** The same from the melody contour given to the constructor. *)
Lemma long_slide_sec_of_melody_five_at_end :
  LongSlide.long_slide_sec_of_melody (map inject_Z ladder_frames) 256 44100
    (9 # 100) (15 # 1000)
  = Some [].
Proof. reflexivity. Qed.

(** ** merge_and_update_prebend_bend_release *)

Section bend_release.
Import BendRelease.




Lemma col_pitch_step esn r n c :
  c <> 4 -> c <> 5 -> col c (pitch_step esn r n) = col c r.
Proof.
  intros H4 H5. unfold pitch_step.
  destruct (Num.gtb _ _); [by apply col_set_col_ne|].
  destruct (Num.ltb _ _); [by apply col_set_col_ne|reflexivity].
Qed.

Lemma col_pitch_steps esn ns r c :
  c <> 4 -> c <> 5 -> col c (foldl (pitch_step esn) r ns) = col c r.
Proof.
  intros H4 H5. revert r. induction ns as [|n ns IH]; intros r; cbn [foldl];
    [reflexivity|].
  rewrite IH. by apply col_pitch_step.
Qed.






End bend_release.

Section bend_release_claims.
Import BendRelease.


Lemma merge_note_step_skip index_candi esn result del k :
  covers (result !!! index_candi) (esn !!! k) (esn !!! (k + 1)) = false ->
  merge_note_step index_candi (esn, result, del) k = (esn, result, del).
Proof. intros H. unfold merge_note_step. by rewrite H. Qed.






Lemma merge_candi_step_skip esn result del index_candi :
  (c_label (result !!! index_candi) <> 0%Z
   \/ (c_start (result !!! index_candi) == 0)%Q
   \/ forall k, k + 1 < length esn ->
        covers (result !!! index_candi) (esn !!! k) (esn !!! (k + 1)) = false) ->
  merge_candi_step (esn, result, del) index_candi = (esn, result, del).
Proof.
  intros H. unfold merge_candi_step. cbn [fst snd].
  destruct (Z.eqb_spec (c_label (result !!! index_candi)) 0) as [E|E];
    [|reflexivity].
  destruct (Num.neqb _ _) eqn:En; [|reflexivity]. cbn [andb].
  apply num_neqb_true in En.
  destruct H as [H|[H|H]]; [done..|].
  apply foldl_id. intros k Hk. apply elem_of_seq in Hk.
  apply merge_note_step_skip, H. lia.
Qed.




(** Two bend candidates that the loop does not chain.  The first one
    merges rows 0 and 1; the second one then merges row 2 into row 1,
    which is already marked for deletion.  Rows 1 and 2 are deleted and
    the vibrato value of row 2 is in no row of the result. *)
Lemma merge_unchained_loses_vibrato :
  chain 1 merge_unchained_example merge_unchained_candidates 0 1 = (0, 1)
  /\ merge_and_update_prebend_bend_release merge_unchained_example
       merge_unchained_candidates
     = [ Esn 60 0 (3 # 2) 0 2 0 0 0 0 0 0 0 ].
Proof. split; reflexivity. Qed.

End bend_release_claims.

(** ** SlowBend.long_CAD_pattern_detection *)

Section slow_bend.
Import SlowBend.

Lemma within_true x n :
  within x n -> Num.geb x (onset n) && Num.leb x (onset n + duration n) = true.
Proof.
  intros [H1 H2]. apply num_geb_true in H1. apply num_leb_true in H2.
  by rewrite H1, H2.
Qed.

Lemma within_false x n :
  ~ within x n ->
  Num.geb x (onset n) && Num.leb x (onset n + duration n) = false.
Proof.
  intros H. destruct (Num.geb x (onset n)) eqn:E1; [|reflexivity].
  destruct (Num.leb x (onset n + duration n)) eqn:E2; [|reflexivity].
  exfalso. apply H. split; [by apply num_geb_true|by apply num_leb_true].
Qed.

Lemma cad_inner_skip nt p n e st m :
  ~ within e (nt !!! m) -> cad_inner nt p n e st m = st.
Proof.
  intros H. unfold cad_inner. destruct st as [notes idx].
  by rewrite (within_false _ _ H).
Qed.

Lemma cad_notes_skip nt p pat ns1 ns2 st :
  (forall k, k ∈ ns1 -> ~ within pat.1 (nt !!! k)) ->
  cad_notes nt p pat (ns1 ++ ns2) st = cad_notes nt p pat ns2 st.
Proof.
  induction ns1 as [|k ns1 IH]; intros H; [reflexivity|].
  cbn [app cad_notes].
  rewrite (within_false _ _ (H k (list_elem_of_here _ _))).
  apply IH. intros k' Hk'. apply H. by apply list_elem_of_further.
Qed.

Lemma cad_notes_skip_all nt p pat ns st :
  (forall k, k ∈ ns -> ~ within pat.1 (nt !!! k)) ->
  cad_notes nt p pat ns st = st.
Proof.
  intros H. rewrite <- (app_nil_r ns). by rewrite cad_notes_skip.
Qed.

(** Every start index of a table of three notes or fewer meets the
    guard [n+3 >= shape[0]]. *)
Lemma cad_notes_short nt p pat ns st :
  length nt <= 3 -> cad_notes nt p pat ns st = st.
Proof.
  intros Hlen. induction ns as [|n ns IH]; [reflexivity|].
  cbn [cad_notes]. destruct (_ && _); [|exact IH].
  assert ((length nt <=? n + 3) = true) as -> by (apply Nat.leb_le; lia).
  reflexivity.
Qed.

Lemma long_CAD_pattern_detection_short nt CAD :
  length nt <= 3 -> long_CAD_pattern_detection nt CAD = ([], CAD).
Proof.
  intros Hlen. unfold long_CAD_pattern_detection.
  rewrite foldl_id; [unfold np_delete; by rewrite delete_from_nil|].
  intros p _. by apply cad_notes_short.
Qed.

(** A run of three notes that rise by one semitone, covered by the
    pattern [(s, e)] and followed by a fourth note, gives one merged
    note. *)
Lemma long_CAD_pattern_detection_three (nt : list note) s e n :
  n + 3 < length nt ->
  (pitch (nt !!! (n + 1)%nat) == pitch (nt !!! n) + 1)%Q ->
  (pitch (nt !!! (n + 2)%nat) == pitch (nt !!! (n + 1)%nat) + 1)%Q ->
  within s (nt !!! n) ->
  (forall k, k < length nt -> k <> n -> ~ within s (nt !!! k)) ->
  within e (nt !!! (n + 2)) ->
  ~ within e (nt !!! (n + 3)) ->
  long_CAD_pattern_detection nt [(s, e)]
  = ([Note (pitch (nt !!! n)) (onset (nt !!! n))
        (duration (nt !!! n) + duration (nt !!! (n + 1)%nat)
         + duration (nt !!! (n + 2)%nat))], []).
Proof.
  intros Hlen Hp1 Hp2 Hs Hs' He He'.
  unfold long_CAD_pattern_detection. cbn [length seq foldl].
  change ([(s, e)] !!! 0) with (s, e).
  assert (cad_notes nt 0 (s, e) (seq 0 (length nt)) ([], [])
          = ([Note (pitch (nt !!! n)) (onset (nt !!! n))
                (duration (nt !!! n) + duration (nt !!! (n + 1)%nat)
                 + duration (nt !!! (n + 2)%nat))], [0])) as ->;
    [|reflexivity].
  replace (length nt) with (n + (1 + (length nt - S n))) at 1 by lia.
  rewrite !seq_app. cbn [seq app].
  rewrite cad_notes_skip.
  2:{ intros k Hk. apply elem_of_seq in Hk. apply Hs'; lia. }
  cbn [cad_notes fst snd]. rewrite Nat.add_0_l.
  rewrite (within_true _ _ Hs).
  assert ((length nt <=? n + 3) = false) as -> by (apply Nat.leb_gt; lia).
  cbn [foldl].
  rewrite (cad_inner_skip _ _ _ _ _ (n + 3)) by exact He'.
  rewrite cad_notes_skip_all.
  2:{ intros k Hk. apply elem_of_seq in Hk. apply Hs'; lia. }
  unfold cad_inner. rewrite (within_true _ _ He).
  replace (n + 2 - n) with 2 by lia. cbn [Nat.leb andb].
  assert (Num.leb (Qabs (pitch (nt !!! n) - pitch (nt !!! (n + 2)))) 3 = true)
    as ->.
  { apply num_leb_true. rewrite Hp2, Hp1. apply Qabs_Qle_condition.
    split.
    - apply Qle_minus_iff. ring_simplify. by vm_compute.
    - apply Qle_minus_iff. ring_simplify. by vm_compute. }
  reflexivity.
Qed.

(** When the end of the pattern lies in the span of no note but the
    one four rows after the note that holds its start, nothing is
    merged. *)
Lemma long_CAD_pattern_detection_distance_four nt s e n :
  (forall k, k < length nt -> k <> n -> ~ within s (nt !!! k)) ->
  (forall k, k < length nt -> k <> n + 4 -> ~ within e (nt !!! k)) ->
  long_CAD_pattern_detection nt [(s, e)] = ([], [(s, e)]).
Proof.
  intros Hs He. unfold long_CAD_pattern_detection. cbn [length seq foldl].
  change ([(s, e)] !!! 0) with (s, e).
  assert (forall ns, (forall k, k ∈ ns -> k < length nt) ->
            cad_notes nt 0 (s, e) ns ([], []) = ([], [])) as ->;
    [|reflexivity|intros k Hk; apply elem_of_seq in Hk; lia].
  induction ns as [|k ns IH]; intros Hns; [reflexivity|].
  assert (cad_notes nt 0 (s, e) ns ([], []) = ([], [])) as IH'.
  { apply IH. intros k' Hk'. by apply Hns, list_elem_of_further. }
  cbn [cad_notes fst snd].
  destruct (decide (k = n)) as [->|Hk].
  - destruct (_ && _); [|exact IH'].
    destruct (length nt <=? n + 3) eqn:E; [reflexivity|]. cbn [foldl].
    apply Nat.leb_gt in E.
    rewrite !cad_inner_skip; [exact IH'|apply He; lia..].
  - rewrite (within_false s (nt !!! k)); [exact IH'|].
    apply Hs; [|exact Hk]. apply Hns, list_elem_of_here.
Qed.

End slow_bend.

(** C5.  On the table that consists of the three notes 60 61 62 and
    the pattern [(0.5, 2.5)], which starts in the first note and ends
    in the third one, the source produces no merged note and keeps the
    pattern as a short one: the guard [n+3 >= shape[0]] leaves the loop
    before the third note is looked at. *)
Theorem long_CAD_pattern_detection_three_at_end :
  SlowBend.long_CAD_pattern_detection cad_three [((1 # 2)%Q, (5 # 2)%Q)]
  = ([], [((1 # 2)%Q, (5 # 2)%Q)]).
Proof. reflexivity. Qed.

(** The same three notes followed by a fourth one are merged. *)
Lemma long_CAD_pattern_detection_three_then_one :
  SlowBend.long_CAD_pattern_detection (cad_three ++ [Note 70 3 1])
    [((1 # 2)%Q, (5 # 2)%Q)]
  = ([Note 60 0 (1 + 1 + 1)], []).
Proof. reflexivity. Qed.

(** ** update_pull_hamm_slide *)

Section pull_hamm_slide.
Import PullHammSlide.

Lemma keeps_refl c (l : list esn_row) : Forall2 (keeps c) l l.
Proof. apply Forall_Forall2_diag, Forall_forall. by intros r _ _. Qed.

Lemma keeps_trans c r1 r2 r3 : keeps c r1 r2 -> keeps c r2 r3 -> keeps c r1 r3.
Proof.
  intros H12 H23 H1. rewrite <- (H12 H1). apply H23. by rewrite (H12 H1).
Qed.

Lemma Forall2_keeps_insert c (l0 l : list esn_row) k r' :
  Forall2 (keeps c) l0 l -> keeps c (l !!! k) r' ->
  Forall2 (keeps c) l0 (<[k := r']> l).
Proof.
  intros H Hk. destruct (decide (k < length l)) as [Hlt|Hge].
  - destruct (lookup_lt_is_Some_2 l k Hlt) as [rk Hrk].
    rewrite (list_lookup_total_correct _ _ _ Hrk) in Hk.
    destruct (Forall2_lookup_r _ _ _ _ _ H Hrk) as (r0 & H0 & HR).
    rewrite <- (list_insert_id l0 k r0 H0).
    apply Forall2_insert; [exact H|]. by apply (keeps_trans c r0 rk).
  - rewrite list_insert_ge by lia. exact H.
Qed.

Lemma keeps_set_other c c' v r : c' <> c -> keeps c r (set_col c' v r).
Proof. intros H _. by apply col_set_col_ne. Qed.

Lemma keeps_set_zero c v r : (col c r == 0)%Q -> keeps c r (set_col c v r).
Proof. intros H Hn. contradiction. Qed.

(** The guarded branches keep every marker of every column. *)
Lemma mark_guarded_keeps c c' i l0 esn :
  Forall2 (keeps c) l0 esn -> Forall2 (keeps c) l0 (mark_guarded c' i esn).
Proof.
  intros H. unfold mark_guarded.
  assert (forall r v, (col c' r == 0)%Q -> keeps c r (set_col c' v r)) as Hset.
  { intros r v Hz. destruct (decide (c' = c)) as [->|Hne];
      [by apply keeps_set_zero|by apply keeps_set_other]. }
  destruct (Num.eqb (col c' (esn !!! i)) 0) eqn:Ea;
    destruct (Num.eqb (col c' (esn !!! (i + 1))) 0) eqn:Eb;
    unfold Num.neqb, Num.eqb in *; rewrite ?Ea; cbn [andb negb];
    try exact H.
  - apply Forall2_keeps_insert.
    + apply Forall2_keeps_insert; [exact H|]. apply Hset. by apply num_eqb_true.
    + rewrite list_lookup_total_insert_ne by lia. apply Hset. by apply num_eqb_true.
  - apply Forall2_keeps_insert; [exact H|]. apply Hset. by apply num_eqb_true.
Qed.

(** The slide branch keeps the markers of the other columns. *)
Lemma mark_slide_keeps c i l0 esn :
  c <> 8 -> Forall2 (keeps c) l0 esn -> Forall2 (keeps c) l0 (mark_slide i esn).
Proof.
  intros Hc H. unfold mark_slide.
  apply Forall2_keeps_insert.
  - apply Forall2_keeps_insert; [exact H|]. apply keeps_set_other. lia.
  - rewrite list_lookup_total_insert_ne by lia. apply keeps_set_other. lia.
Qed.

Lemma tag_note_step_keeps c d cand l0 esn index_note :
  c <> 8 -> Forall2 (keeps c) l0 esn ->
  Forall2 (keeps c) l0 (tag_note_step d cand esn index_note).
Proof.
  intros Hc H. unfold tag_note_step.
  destruct (covers _ _ _); [|exact H].
  destruct (head _) as [t|]; [|exact H].
  destruct (String.eqb t "pull"); [by apply mark_guarded_keeps|].
  destruct (String.eqb t "hamm"); [by apply mark_guarded_keeps|].
  destruct (String.eqb t "slide"); [by apply mark_slide_keeps|exact H].
Qed.

Lemma tag_candi_step_keeps c d cand l0 esn :
  c <> 8 -> Forall2 (keeps c) l0 esn ->
  Forall2 (keeps c) l0 (tag_candi_step d esn cand).
Proof.
  intros Hc H. unfold tag_candi_step. destruct (_ && _); [|exact H].
  generalize (seq 0 (length esn - 1)). intros ns. revert esn H.
  induction ns as [|n ns IH]; intros esn H; cbn [foldl]; [exact H|].
  apply IH. by apply tag_note_step_keeps.
Qed.

(** Pull and hammer markers (and every column but the slide one) are
    never overwritten once they are not zero. *)
Lemma update_pull_hamm_slide_keeps c esn result d :
  c <> 8 -> Forall2 (keeps c) esn (update_pull_hamm_slide esn result d).
Proof.
  intros Hc. unfold update_pull_hamm_slide.
  assert (forall l0 esn', Forall2 (keeps c) l0 esn' ->
            Forall2 (keeps c) l0 (foldl (tag_candi_step d) esn' result)) as H.
  { induction result as [|cand result IH]; intros l0 esn' H; cbn [foldl];
      [exact H|]. apply IH. by apply tag_candi_step_keeps. }
  apply H, keeps_refl.
Qed.

End pull_hamm_slide.

(** C7.  A slide candidate over the second and third notes overwrites
    the stop marker 2 of the second note with the start marker 1: the
    slide branch assigns without the test that the pull and hammer
    branches make. *)
Theorem update_pull_hamm_slide_overwrites_slide :
  PullHammSlide.update_pull_hamm_slide slid_once [Cand (3 # 2) (5 # 2) 4]
    tech_index_all
  = [ Esn 60 0 1 0 0 0 0 0 1 0 0 0; Esn 62 1 1 0 0 0 0 0 1 0 0 0;
      Esn 64 2 1 0 0 0 0 0 2 0 0 0 ].
Proof. reflexivity. Qed.

(** The same table with the markers in the pull column, and a pull
    candidate: the stop marker of the second note is kept. *)
Lemma update_pull_hamm_slide_keeps_pull :
  PullHammSlide.update_pull_hamm_slide
    [ Esn 60 0 1 0 0 0 1 0 0 0 0 0; Esn 62 1 1 0 0 0 2 0 0 0 0 0;
      Esn 64 2 1 0 0 0 0 0 0 0 0 0 ]
    [Cand (3 # 2) (5 # 2) 3] tech_index_all
  = [ Esn 60 0 1 0 0 0 1 0 0 0 0 0; Esn 62 1 1 0 0 0 2 0 0 0 0 0;
      Esn 64 2 1 0 0 0 2 0 0 0 0 0 ].
Proof. reflexivity. Qed.

(** Two slide candidates in a row on a table without markers reach the
    table of C7 and overwrite it in the same call. *)
Lemma update_pull_hamm_slide_two_slides :
  PullHammSlide.update_pull_hamm_slide
    (map esn_of_note [Note 60 0 1; Note 62 1 1; Note 64 2 1])
    [Cand (1 # 2) (3 # 2) 4; Cand (3 # 2) (5 # 2) 4] tech_index_all
  = [ Esn 60 0 1 0 0 0 0 0 1 0 0 0; Esn 62 1 1 0 0 0 0 0 1 0 0 0;
      Esn 64 2 1 0 0 0 0 0 2 0 0 0 ].
Proof. reflexivity. Qed.

(** Applying a candidate twice gives what applying it once gives. *)
Lemma update_pull_hamm_slide_twice :
  let once := PullHammSlide.update_pull_hamm_slide
                (map esn_of_note [Note 60 0 1; Note 62 1 1; Note 64 2 1])
                [Cand (1 # 2) (3 # 2) 3] tech_index_all in
  PullHammSlide.update_pull_hamm_slide once [Cand (1 # 2) (3 # 2) 3]
    tech_index_all = once.
Proof. reflexivity. Qed.

(** * Further properties *)

(** * The rest of the module: properties *)

(** ** More on [update_esn] *)

Section update_esn_more.
Import Common.

(** One pass over the table for a detection that only row [i] meets,
    from any state of the scan. *)
Lemma update_esn_note_unique t sub n esn del i esn' del' :
  i < length esn ->
  (forall k rk, k <> i -> esn !! k = Some rk -> ~ (onset n == e_onset rk)%Q) ->
  update_esn_row t sub n (esn, del) i = (esn', del') ->
  (forall k, k <> i -> esn' !! k = esn !! k) ->
  length esn' = length esn ->
  update_esn_note t sub (esn, del) n = (esn', del').
Proof.
  intros Hlen Huniq Hstep Hsame Hl. unfold update_esn_note. cbn [fst].
  replace (length esn) with (i + (1 + (length esn - S i))) by lia.
  rewrite !seq_app, !foldl_app. cbn [seq foldl].
  rewrite (foldl_id _ (esn, del) (seq 0 i)).
  2:{ intros k Hk. apply elem_of_seq in Hk.
      apply update_esn_row_skip. intros rk Hrk. apply (Huniq k); [lia|done]. }
  change (0 + i) with i. rewrite Hstep. apply foldl_id.
  intros k Hk. apply elem_of_seq in Hk.
  apply update_esn_row_skip. intros rk Hrk.
  rewrite Hsame in Hrk by lia. apply (Huniq k); [lia|done].
Qed.



(** X1.  A single detection that meets one row only, a row at least as
    long as the detection: the result is the table with that row cut to
    the detected duration and tagged; no row is removed. *)
Theorem update_esn_shrink esn n tq sub i ri :
  esn !! i = Some ri ->
  (onset n == e_onset ri)%Q ->
  (duration n <= e_duration ri)%Q ->
  (forall k rk, k <> i -> esn !! k = Some rk -> ~ (onset n == e_onset rk)%Q) ->
  update_esn esn [n] tq sub = <[i := tag_row (tech_col tq) sub n ri]> esn.
Proof.
  intros Hi Hon Hdur Huniq. unfold update_esn. cbn [foldl].
  rewrite (update_esn_note_unique _ _ n esn [] i
             (<[i := tag_row (tech_col tq) sub n ri]> esn) []).
  - apply delete_from_nil.
  - by apply lookup_lt_Some in Hi.
  - exact Huniq.
  - unfold update_esn_row. rewrite Hi.
    apply num_eqb_true in Hon. rewrite Hon.
    apply num_geb_true in Hdur. by rewrite Hdur.
  - intros k Hk. by rewrite list_lookup_insert_ne.
  - apply length_insert.
Qed.

Lemma update_esn_shrink_witness :
  update_esn walk_example [Note 60 0 (1 # 2)] Bend 3
  = [ Esn 60 0 (1 # 2) 0 3 0 0 0 0 0 0 0; esn_of_note (Note 62 1 1);
      esn_of_note (Note 64 4 1) ].
Proof.
  apply (update_esn_shrink walk_example (Note 60 0 (1 # 2)) Bend 3 0
           (esn_of_note (Note 60 0 1))).
  - reflexivity.
  - reflexivity.
  - by vm_compute.
  - intros k rk Hk Hrk.
    destruct k as [|[|[|k]]]; [done| | |done];
      injection Hrk as <-; by vm_compute.
Defined.



Lemma set_col_duration_id r : set_col 2 (e_duration r) r = r.
Proof. by destruct r. Qed.

Lemma e_onset_set_col c v r : c <> 1 -> e_onset (set_col c v r) = e_onset r.
Proof. intros H. apply (col_set_col_ne c 1 v r H). Qed.

Lemma e_duration_set_col c v r :
  c <> 2 -> e_duration (set_col c v r) = e_duration r.
Proof. intros H. apply (col_set_col_ne c 2 v r H). Qed.

Lemma distinct_onsets_insert (l : list esn_row) i r' :
  distinct_onsets l ->
  (forall r, l !! i = Some r -> e_onset r' = e_onset r) ->
  distinct_onsets (<[i := r']> l).
Proof.
  intros Hd Hi a b ra rb Hab Ha Hb.
  destruct (decide (a = i)) as [->|Hai].
  - assert (i < length l) as Hlt.
    { apply lookup_lt_Some in Ha. by rewrite length_insert in Ha. }
    rewrite list_lookup_insert_eq in Ha by exact Hlt. injection Ha as <-.
    rewrite list_lookup_insert_ne in Hb by done.
    destruct (lookup_lt_is_Some_2 l i Hlt) as [ri Hri].
    rewrite (Hi ri Hri). by apply (Hd i b).
  - rewrite list_lookup_insert_ne in Ha by done.
    destruct (decide (b = i)) as [->|Hbi].
    + assert (i < length l) as Hlt.
      { apply lookup_lt_Some in Hb. by rewrite length_insert in Hb. }
      rewrite list_lookup_insert_eq in Hb by exact Hlt. injection Hb as <-.
      destruct (lookup_lt_is_Some_2 l i Hlt) as [ri Hri].
      rewrite (Hi ri Hri). by apply (Hd a i).
    + rewrite list_lookup_insert_ne in Hb by done. by apply (Hd a b).
Qed.

(** The detections are rows of the table itself, taken in order. *)
Lemma update_esn_own_rows_from t sub (P : esn_row -> Prop)
    `{forall r, Decision (P r)} todo : forall done del,
  3 <= t ->
  distinct_onsets (done ++ todo) ->
  foldl (update_esn_note t sub) (done ++ todo, del)
    (map note_of_esn (filter P todo))
  = (done ++ map (fun r => if decide (P r) then set_col t sub r else r) todo,
     del).
Proof.
  induction todo as [|r todo IH]; intros done del Ht Hd; [reflexivity|].
  rewrite filter_cons. cbn [map].
  assert ((done ++ [r]) ++ todo = done ++ r :: todo) as Eapp
    by (by rewrite <- app_assoc).
  destruct (decide (P r)) as [HP|HP].
  - cbn [map foldl].
    set (r' := set_col t sub r).
    assert (done ++ r' :: todo = <[length done := r']> (done ++ r :: todo))
      as Eins.
    { rewrite insert_app_r_alt by lia.
      by replace (length done - length done) with 0 by lia. }
    assert ((done ++ r :: todo) !! length done = Some r) as Hr.
    { rewrite lookup_app_r by lia.
      by replace (length done - length done) with 0 by lia. }
    rewrite (update_esn_note_unique t sub (note_of_esn r) (done ++ r :: todo)
               del (length done) (done ++ r' :: todo) del).
    + replace (done ++ r' :: todo) with ((done ++ [r']) ++ todo)
        by (by rewrite <- app_assoc).
      rewrite IH; [by rewrite <- app_assoc|exact Ht|].
      rewrite <- app_assoc. cbn [app]. rewrite Eins.
      apply distinct_onsets_insert; [exact Hd|].
      intros r0 Hr0. rewrite Hr in Hr0. injection Hr0 as <-.
      apply e_onset_set_col. lia.
    + rewrite length_app. cbn [length]. lia.
    + intros k rk Hk Hrk Heq. cbn [note_of_esn onset] in Heq.
      by apply (Hd (length done) k r rk).
    + unfold update_esn_row. rewrite Hr. cbn [note_of_esn onset duration].
      assert (Num.eqb (e_onset r) (e_onset r) = true) as ->
        by (apply num_eqb_true; reflexivity).
      assert (Num.geb (e_duration r) (e_duration r) = true) as ->
        by (apply num_geb_true; apply Qle_refl).
      rewrite Eins. unfold tag_row.
      change (duration (note_of_esn r)) with (e_duration r).
      by rewrite set_col_duration_id.
    + intros k Hk. rewrite Eins. by rewrite list_lookup_insert_ne.
    + rewrite Eins. apply length_insert.
  - rewrite <- Eapp. rewrite IH; [by rewrite <- app_assoc|exact Ht|].
    by rewrite Eapp.
Qed.

(** The same for any decidable choice of rows (shared with the
    detectors that pass rows of the table to [update_esn]). *)
Lemma update_esn_own_rows_from_table esn tq sub (P : esn_row -> Prop)
    `{forall r, Decision (P r)} :
  distinct_onsets esn ->
  update_esn esn (map note_of_esn (filter P esn)) tq sub
  = map (fun r => if decide (P r) then set_col (tech_col tq) sub r else r) esn.
Proof.
  intros Hd. unfold update_esn.
  rewrite (update_esn_own_rows_from (tech_col tq) sub P esn [] []);
    [apply delete_from_nil|destruct tq; simpl; lia|exact Hd].
Qed.

(** X3.  When the detections are rows of the table itself (their own
    onset and duration), the onsets of the table being pairwise
    different, the result is the table with exactly these rows tagged:
    no row is removed and no duration changes. *)
Theorem update_esn_own_rows esn tq sub (P : esn_row -> Prop)
    `{forall r, Decision (P r)} :
  distinct_onsets esn ->
  update_esn esn (map note_of_esn (filter P esn)) tq sub
  = map (fun r => if decide (P r) then set_col (tech_col tq) sub r else r) esn.
Proof.
  apply update_esn_own_rows_from_table.
Qed.

Lemma update_esn_own_rows_witness :
  update_esn walk_example
    (map note_of_esn (filter (fun r => Num.eqb (e_pitch r) 62 = true) walk_example))
    Vibrato 1
  = [ esn_of_note (Note 60 0 1); Esn 62 1 1 0 0 0 0 0 0 0 0 1;
      esn_of_note (Note 64 4 1) ].
Proof.
  rewrite (update_esn_own_rows walk_example Vibrato 1
             (fun r => Num.eqb (e_pitch r) 62 = true)); [reflexivity|].
  intros a b ra rb Hab Ha Hb.
  destruct a as [|[|[|a]]]; destruct b as [|[|[|b]]];
    try done; injection Ha as <-; injection Hb as <-; by vm_compute.
Defined.

End update_esn_more.

(** ** [note_2_ts] and [update_ts] *)

Lemma take_rows_all {A} `{Inhabited A} (l : list A) :
  take_rows l (seq 0 (length l)) = l.
Proof.
  unfold take_rows. apply list_eq. intros i.
  rewrite list_lookup_fmap.
  destruct (decide (i < length l)) as [Hlt|Hge].
  - rewrite lookup_seq_lt by exact Hlt. cbn.
    symmetry. by apply list_lookup_lookup_total_lt.
  - rewrite lookup_seq_ge by lia. cbn. symmetry. apply lookup_ge_None. lia.
Qed.

(** X4.  Whatever order [np.argsort] chooses among the orders that
    sort the start times, [update_ts] returns the old rows and one row
    per new segment, each with the index of the technique, none lost and
    none merged, in the order of their start times. *)
Theorem update_ts_sorted argsort ts segs tq :
  let stacked :=
    ts ++ map (fun seg => Ts seg.1 seg.2 (tech_col tq)) segs in
  argsort_of (map ts_start stacked) (argsort (map ts_start stacked)) ->
  update_ts argsort ts segs tq ≡ₚ stacked
  /\ sorted_by_start (update_ts argsort ts segs tq).
Proof.
  intros stacked [Hperm Hsorted]. unfold update_ts. fold stacked.
  rewrite length_map in Hperm. split.
  - pose proof (Permutation_map (fun i => stacked !!! i) Hperm) as Hp.
    fold (take_rows stacked (seq 0 (length stacked))) in Hp.
    by rewrite take_rows_all in Hp.
  - intros i j a b Hij Ha Hb. unfold take_rows in Ha, Hb.
    rewrite list_lookup_fmap in Ha, Hb.
    destruct (argsort (map ts_start stacked) !! i) as [ka|] eqn:Eka;
      [|done].
    destruct (argsort (map ts_start stacked) !! j) as [kb|] eqn:Ekb;
      [|done].
    cbn in Ha, Hb. injection Ha as <-. injection Hb as <-.
    assert (forall k m, argsort (map ts_start stacked) !! m = Some k ->
                        k < length stacked) as Hin.
    { intros k m Hk. apply list_elem_of_lookup_2 in Hk.
      rewrite Hperm in Hk. apply elem_of_seq in Hk. lia. }
    pose proof (Hsorted i j ka kb Hij Eka Ekb) as Hle.
    rewrite (list_lookup_total_fmap ts_start stacked ka) in Hle by eauto.
    rewrite (list_lookup_total_fmap ts_start stacked kb) in Hle by eauto.
    exact Hle.
Qed.

Lemma update_ts_sorted_witness :
  let argsort := fun _ : list Q => [1; 0] in
  update_ts argsort [Ts 2 3 11] [(0%Q, 1%Q)] SlideOut
  ≡ₚ [Ts 2 3 11; Ts 0 1 10]
  /\ sorted_by_start (update_ts argsort [Ts 2 3 11] [(0%Q, 1%Q)] SlideOut).
Proof.
  intros argsort.
  apply (update_ts_sorted argsort [Ts 2 3 11] [(0%Q, 1%Q)] SlideOut).
  split.
  - apply perm_swap.
  - intros i j a b Hij Ha Hb.
    destruct i as [|[|i]]; destruct j as [|[|j]]; try done; try lia;
      injection Ha as <-; injection Hb as <-; by vm_compute.
Defined.

(** ** SoftVibrato.detect *)



(** ** More on [identify_serrated_pattern] *)

Section serrated_more.
Import WildVibrato.

Lemma serrated_step_sublist extent nt merged wild n :
  sublist wild merged ->
  sublist (serrated_step extent (nt, merged, wild) n).2
    (serrated_step extent (nt, merged, wild) n).1.2.
Proof.
  intros H. unfold serrated_step.
  destruct (_ && (n + 1 <=? _)).
  - destruct (_ && _); cbn [fst snd].
    + destruct (5 <=? _); cbn [fst snd].
      * by apply sublist_app.
      * by apply sublist_inserts_r.
    + by apply sublist_inserts_r.
  - destruct (_ && _); cbn [fst snd]; [by apply sublist_inserts_r|exact H].
Qed.

(** X6.  Every note registered as wild vibrato is one of the merged
    notes, and the two lists have them in the same order. *)
Theorem identify_serrated_pattern_sublist nt extent :
  sublist (identify_serrated_pattern nt extent).2
    (identify_serrated_pattern nt extent).1.
Proof.
  unfold identify_serrated_pattern. cbn [fst snd].
  generalize (seq 0 (length nt)). intros ns.
  assert (forall st : list note * list note * list note,
            sublist st.2 st.1.2 ->
            sublist (foldl (serrated_step extent) st ns).2
              (foldl (serrated_step extent) st ns).1.2) as Hall.
  { induction ns as [|n ns IH]; intros [[nt' merged] wild] H; cbn [foldl];
      [exact H|].
    apply IH. by apply serrated_step_sublist. }
  apply Hall. constructor.
Qed.

(** A table without a rising step of the extent: every row that has a
    pitch is copied. *)
Lemma serrated_steps_plain extent nt m : forall a merged,
  (forall n, n + 1 < length nt ->
     ~ (pitch_step_at nt n == extent)%Q) ->
  a + m = length nt ->
  foldl (serrated_step extent) (nt, merged, []) (seq a m)
  = (nt, merged ++ filter (fun x => Num.neqb (pitch x) 0 = true) (drop a nt),
     []).
Proof.
  induction m as [|m IH]; intros a merged Hno Hlen; cbn [seq foldl].
  - rewrite drop_ge by lia. by rewrite filter_nil, app_nil_r.
  - assert (a < length nt) as Ha by lia.
    destruct (lookup_lt_is_Some_2 nt a Ha) as [cur Hcur].
    rewrite (drop_S _ _ _ Hcur), filter_cons.
    assert (serrated_step extent (nt, merged, []) a
            = (nt, merged ++ (if decide (Num.neqb (pitch cur) 0 = true)
                              then [cur] else []), [])) as ->.
    { unfold serrated_step.
      rewrite (list_lookup_total_correct _ _ _ Hcur).
      destruct (Num.neqb (pitch cur) 0) eqn:Ez; cbn [andb].
      - rewrite decide_True by done.
        destruct (a + 1 <=? length nt - 1) eqn:Eb.
        + apply Nat.leb_le in Eb.
          pose proof (Hno a ltac:(lia)) as Hna.
          apply num_eqb_false in Hna. unfold pitch_step_at in Hna.
          rewrite (list_lookup_total_correct _ _ _ Hcur) in Hna.
          by rewrite Hna.
        + apply Nat.leb_gt in Eb.
          assert ((length nt - 1 <? a + 1) = true) as ->
            by (apply Nat.ltb_lt; lia).
          replace (length nt - 1) with a by lia.
          by rewrite (list_lookup_total_correct _ _ _ Hcur).
      - rewrite decide_False by done. by rewrite app_nil_r. }
    rewrite IH by (done || lia). rewrite <- app_assoc.
    by destruct (decide _).
Qed.

(** X7.  A note list in which no note is followed by a note exactly
    [extent] semitones higher has no run: the notes that have a pitch
    (non-zero) are returned as they are, in order, and nothing is
    registered as vibrato. *)
Theorem identify_serrated_pattern_plain nt extent :
  (forall n, n + 1 < length nt ->
     ~ (pitch_step_at nt n == extent)%Q) ->
  identify_serrated_pattern nt extent
  = (filter (fun x => Num.neqb (pitch x) 0 = true) nt, []).
Proof.
  intros Hno. unfold identify_serrated_pattern.
  by rewrite (serrated_steps_plain extent nt (length nt) 0 []).
Qed.

Lemma identify_serrated_pattern_plain_witness :
  identify_serrated_pattern [Note 60 0 1; Note 64 1 1; Note 0 2 1; Note 62 3 1]
    2
  = ([Note 60 0 1; Note 64 1 1; Note 62 3 1], []).
Proof.
  apply (identify_serrated_pattern_plain
           [Note 60 0 1; Note 64 1 1; Note 0 2 1; Note 62 3 1] 2).
  intros n Hn. cbn [length] in Hn.
  destruct n as [|[|[|n]]]; [by vm_compute..|lia].
Defined.

Lemma zero_pitch_lookup a b nt i :
  a <= i <= b -> pitch (zero_pitch a b nt !!! i) = 0%Q.
Proof.
  intros Hi. unfold zero_pitch.
  destruct (nt !! i) as [x|] eqn:Ex.
  - rewrite (list_lookup_total_correct _ i (Note 0 (onset x) (duration x)));
      [reflexivity|].
    rewrite list_lookup_imap, Ex. cbn.
    assert ((a <=? i) && (i <=? b) = true) as ->; [|reflexivity].
    apply andb_true_iff. split; apply Nat.leb_le; lia.
  - rewrite list_lookup_total_alt, list_lookup_imap, Ex. reflexivity.
Qed.

Lemma serrated_step_inv extent len n st :
  n < len -> serrated_inv len n st ->
  serrated_inv len (S n) (serrated_step extent st n).
Proof.
  intros Hn. destruct st as [[nt merged] wild].
  intros (Hlen & hi & Hhi & Hm & Hz). cbn [fst snd] in *.
  destruct (decide (n < hi)) as [Hlt|Hge].
  - assert (serrated_step extent (nt, merged, wild) n = (nt, merged, wild))
      as ->.
    { unfold serrated_step.
      assert (Num.neqb (pitch (nt !!! n)) 0 = false) as ->; [|reflexivity].
      rewrite Hz by lia. apply num_neqb_false. reflexivity. }
    split; [exact Hlen|]. exists hi. cbn [fst snd].
    split; [exact Hhi|]. split; [lia|]. intros k Hk. apply Hz. lia.
  - unfold serrated_step.
    destruct (Num.neqb (pitch (nt !!! n)) 0); cbn [andb];
      [|split; [exact Hlen|]; exists hi; cbn [fst snd];
        split; [exact Hhi|]; split; [lia|intros k Hk; lia]].
    destruct (n + 1 <=? length nt - 1) eqn:E1.
    + apply Nat.leb_le in E1.
      destruct (_ && _).
      * set (offset_note := if n + 1 + 1 <=? length nt - 1 then _ else _).
        assert (n + 1 <= offset_note <= len - 1) as Ho.
        { unfold offset_note. destruct (n + 1 + 1 <=? length nt - 1) eqn:E2.
          - apply Nat.leb_le in E2.
            pose proof (extend_run_bound (length nt - 1 - (n + 1 + 1)) nt
                          extent (n + 1)
                          (Num.sign (pitch (nt !!! (n + 1))
                                     - pitch (nt !!! n)))) as Hb.
            assert (forall k nt e o s, o <= extend_run k nt e o s) as Hlo.
            { clear. induction k as [|k IH]; intros nt e o s;
                cbn [extend_run]; [lia|].
              destruct (_ && _); [|lia].
              specialize (IH nt e (o + 1) (Num.sign
                (pitch (nt !!! (o + 1)) - pitch (nt !!! o)))). lia. }
            specialize (Hlo (length nt - 1 - (n + 1 + 1)) nt extent (n + 1)
                          (Num.sign (pitch (nt !!! (n + 1))
                                     - pitch (nt !!! n)))).
            lia.
          - lia. }
        destruct (5 <=? _); (split; [cbn [fst]; by rewrite zero_pitch_length|]);
          exists (S offset_note); cbn [fst snd];
          (split; [lia|]); (split; [|intros k Hk; apply zero_pitch_lookup; lia]).
        -- rewrite length_app. cbn [length]. lia.
        -- rewrite length_app. unfold slice. rewrite length_take. lia.
      * split; [exact Hlen|]. exists hi. cbn [fst snd].
        split; [exact Hhi|]. split; [rewrite length_app; cbn [length]; lia|].
        intros k Hk. lia.
    + destruct (length nt - 1 <? n + 1); (split; [exact Hlen|]); exists hi;
        cbn [fst snd]; (split; [exact Hhi|]); (split; [|intros k Hk; lia]).
      * rewrite length_app. cbn [length]. lia.
      * lia.
Qed.

(** X8.  The merged note list is never longer than the note list it
    comes from. *)
Theorem identify_serrated_pattern_length nt extent :
  length (identify_serrated_pattern nt extent).1 <= length nt.
Proof.
  unfold identify_serrated_pattern. cbn [fst].
  assert (forall m a st, a + m = length nt -> serrated_inv (length nt) a st ->
            serrated_inv (length nt) (a + m)
              (foldl (serrated_step extent) st (seq a m))) as Hall.
  { induction m as [|m IH]; intros a st Ham Hinv; cbn [seq foldl].
    - by rewrite Nat.add_0_r.
    - replace (a + S m) with (S a + m) by lia.
      apply IH; [lia|]. apply serrated_step_inv; [lia|exact Hinv]. }
  destruct (Hall (length nt) 0 (nt, [], []) eq_refl)
    as (_ & hi & Hhi & Hm & _).
  - split; [reflexivity|]. exists 0. cbn [fst snd length].
    split; [lia|]. split; [lia|]. intros k Hk. lia.
  - cbn [Nat.add] in Hm. lia.
Qed.

End serrated_more.

(** ** More on [quantize] *)

Section quantize_more.
Import LongSlide.

Lemma nearest_bin_spec x :
  (inject_Z (nearest_bin x) - (1 # 2) <= x)%Q
  /\ (x < inject_Z (nearest_bin x + 1) - (1 # 2))%Q.
Proof.
  destruct x as [n d]. unfold nearest_bin. cbn [Qnum Qden].
  pose proof (Z.div_mod (2 * n + Zpos d) (2 * Zpos d) ltac:(lia)) as Hdm.
  pose proof (Z.mod_pos_bound (2 * n + Zpos d) (2 * Zpos d) ltac:(lia)) as Hb.
  set (q := ((2 * n + Zpos d) / (2 * Zpos d))%Z) in *.
  set (r := ((2 * n + Zpos d) mod (2 * Zpos d))%Z) in *.
  unfold Qle, Qlt, Qminus, Qplus, Qopp, inject_Z. cbn [Qnum Qden].
  split; nia.
Qed.

Lemma nearest_bin_nonneg d : (- (1 # 2) <= d)%Q -> (0 <= nearest_bin d)%Z.
Proof.
  intros E. destruct (nearest_bin_spec d) as [_ Hhi].
  destruct (Z.lt_ge_cases (nearest_bin d) 0) as [Hneg|]; [|done].
  exfalso. apply (Qlt_irrefl d).
  eapply Qlt_le_trans; [exact Hhi|].
  eapply Qle_trans; [|exact E].
  unfold Qle, Qminus, Qplus, Qopp, inject_Z. cbn [Qnum Qden]. lia.
Qed.

Lemma default_bin_lookup d :
  py_get default_codebook
    (find_index default_partitions (inject_Z (1 - 0) / 2) d 0 - 1)
  = Some (default_bin d).
Proof.
  unfold default_bin. destruct (Num.ltb d (- (1 # 2))) eqn:E.
  - apply num_ltb_true in E.
    unfold default_partitions. change 90%Z with (Z.of_nat 90).
    rewrite (find_index_seqZ 90 0); [reflexivity|lia|..].
    + intros p Hp. lia.
    + intros _. rewrite default_halfstep. exact E.
  - apply num_ltb_false in E.
    destruct (nearest_bin_spec d) as [Hlo Hhi].
    pose proof (nearest_bin_nonneg d E) as Hnn.
    set (k := Z.min 89 (nearest_bin d)).
    assert (0 <= k <= 89)%Z as Hk by (unfold k; lia).
    unfold default_partitions. change 90%Z with (Z.of_nat 90).
    rewrite (find_index_seqZ 90 (Z.to_nat (k + 1))); [|lia|..].
    + replace (0 + Z.of_nat (Z.to_nat (k + 1)) - 1)%Z with k by lia.
      unfold py_get. destruct (Z.leb_spec 0 k) as [_|]; [|lia].
      unfold default_codebook. rewrite lookup_seqZ. split; [|lia].
      f_equal. lia.
    + intros p Hp. rewrite default_halfstep.
      apply Qle_trans with (inject_Z (nearest_bin d) - (1 # 2))%Q;
        [|exact Hlo].
      apply Qplus_le_l. rewrite <- Zle_Qle. unfold k in *. lia.
    + intros Hlt. rewrite default_halfstep.
      replace (0 + Z.of_nat (Z.to_nat (k + 1)))%Z with (k + 1)%Z by lia.
      assert (k = nearest_bin d) as -> by (unfold k in *; lia).
      exact Hhi.
Qed.

Lemma default_bin_range d : (0 <= default_bin d <= 90)%Z.
Proof.
  unfold default_bin. destruct (Num.ltb d (- (1 # 2))) eqn:E; [lia|].
  apply num_ltb_false in E. pose proof (nearest_bin_nonneg d E). lia.
Qed.

(** X9.  With its default partitions and codebook [quantize] never
    raises and returns one value per sample: the nearest integer (halves
    go up) for a sample from -0.5 on, cut at 89, and 90 for a sample
    below -0.5. *)
Theorem quantize_default data :
  quantize data default_partitions default_codebook
  = Some (map default_bin data).
Proof.
  unfold quantize.
  change (py_get default_partitions 0) with (Some 0%Z).
  change (py_get default_partitions 1) with (Some 1%Z).
  cbn [mbind option_bind].
  rewrite (mapM_Some_2 _ data (map default_bin data)).
  - change (Some (map clip_negative (map default_bin data))
            = Some (map default_bin data)).
    f_equal.
    induction data as [|d data IH]; cbn [map]; [reflexivity|].
    rewrite IH. f_equal. unfold clip_negative.
    pose proof (default_bin_range d).
    destruct (Z.ltb_spec (default_bin d) 0); [lia|reflexivity].
  - induction data as [|d data IH]; cbn [map]; constructor;
      [apply default_bin_lookup|exact IH].
Qed.

End quantize_more.

(** ** [frame2note] *)

Section frame2note_more.
Import LongSlide.

Lemma run_end_Some k frame o o' :
  run_end k frame o = Some o' ->
  o <= o' < o + k /\ frame !!! (o' + 1) <> frame !!! o'.
Proof.
  revert o. induction k as [|k IH]; intros o H; cbn [run_end] in H; [done|].
  destruct (Z.eqb_spec (frame !!! (o + 1)) (frame !!! o)) as [E|E].
  - apply IH in H. lia.
  - injection H as <-. split; [lia|exact E].
Qed.

Lemma zero_frames_length a b frame :
  length (zero_frames a b frame) = length frame.
Proof. apply length_imap. Qed.

Lemma zero_frames_lookup a b frame i :
  i < length frame ->
  zero_frames a b frame !!! i
  = if (a <=? i) && (i <=? b) then 0%Z else frame !!! i.
Proof.
  intros Hi. unfold zero_frames.
  destruct (lookup_lt_is_Some_2 frame i Hi) as [x Ex].
  rewrite (list_lookup_total_correct _ i
             (if (a <=? i) && (i <=? b) then 0%Z else x)).
  - by rewrite (list_lookup_total_correct _ _ _ Ex).
  - by rewrite list_lookup_imap, Ex.
Qed.

Lemma frame2note_step_None ns :
  foldl frame2note_step None ns = None.
Proof. induction ns as [|n ns IH]; [reflexivity|exact IH]. Qed.

(** The last two frames stay as they are as long as no run fails. *)
Lemma frame2note_steps_last_two (pre : list Z) v m : forall a frame nt,
  length frame = length pre + 2 ->
  frame !!! length pre = v -> frame !!! (length pre + 1) = v ->
  a + m <= length pre ->
  match foldl frame2note_step (Some (frame, nt)) (seq a m) with
  | Some (frame', _) =>
      length frame' = length pre + 2
      /\ frame' !!! length pre = v /\ frame' !!! (length pre + 1) = v
  | None => True
  end.
Proof.
  induction m as [|m IH]; intros a frame nt Hlen H1 H2 Ham; cbn [seq foldl].
  - done.
  - cbn [frame2note_step mbind option_bind].
    destruct (negb (frame !!! a =? 0)%Z).
    + destruct (run_end (length frame - (a + 1)) frame a) as [o|] eqn:Er;
        cbn [mbind option_bind]; [|by rewrite frame2note_step_None].
      apply run_end_Some in Er as [Ho Hne].
      assert (o < length pre) as Hop.
      { destruct (decide (o = length pre)) as [->|]; [congruence|lia]. }
      apply IH; [by rewrite zero_frames_length| | |lia].
      * rewrite zero_frames_lookup by lia.
        destruct (a <=? length pre); destruct (length pre <=? o) eqn:E2;
          cbn [andb]; try exact H1. apply Nat.leb_le in E2. lia.
      * rewrite zero_frames_lookup by lia.
        destruct (a <=? length pre + 1);
          destruct (length pre + 1 <=? o) eqn:E2;
          cbn [andb]; try exact H2. apply Nat.leb_le in E2. lia.
    + apply IH; [done..|lia].
Qed.

(** A contour whose last two frames are equal and voiced makes
    [frame2note] raise: the loop that follows a run reads one frame past
    the end. *)
Lemma frame2note_held_end (pre : list Z) v hop sr :
  v <> 0%Z -> frame2note (pre ++ [v; v]) hop sr = None.
Proof.
  intros Hv. unfold frame2note.
  assert (length (pre ++ [v; v]) = length pre + 2) as Hlen
    by (rewrite length_app; reflexivity).
  rewrite Hlen. replace (length pre + 2 - 1) with (length pre + 1) by lia.
  rewrite seq_app, foldl_app. cbn [seq foldl Nat.add].
  assert ((pre ++ [v; v]) !!! length pre = v) as H1.
  { apply list_lookup_total_correct. rewrite lookup_app_r by lia.
    by replace (length pre - length pre) with 0 by lia. }
  assert ((pre ++ [v; v]) !!! (length pre + 1) = v) as H2.
  { apply list_lookup_total_correct. rewrite lookup_app_r by lia.
    by replace (length pre + 1 - length pre) with 1 by lia. }
  pose proof (frame2note_steps_last_two pre v (length pre) 0 (pre ++ [v; v])
                [] Hlen H1 H2 ltac:(lia)) as Hst.
  destruct (foldl frame2note_step _ (seq 0 (length pre)))
    as [[frame' nt']|]; [|reflexivity].
  destruct Hst as (Hl & Hf1 & Hf2).
  cbn [frame2note_step mbind option_bind].
  rewrite Hf1. destruct (Z.eqb_spec v 0) as [|_]; [done|]. cbn [negb].
  rewrite Hl. replace (length pre + 2 - (length pre + 1)) with 1 by lia.
  cbn [run_end]. rewrite Hf1, Hf2, Z.eqb_refl. reflexivity.
Qed.

Lemma run_end_equal k frame : forall o o',
  run_end k frame o = Some o' ->
  forall j, o <= j <= o' -> frame !!! j = frame !!! o.
Proof.
  induction k as [|k IH]; intros o o' H j Hj; cbn [run_end] in H; [done|].
  destruct (Z.eqb_spec (frame !!! (o + 1)) (frame !!! o)) as [E|E].
  - destruct (decide (j = o)) as [->|Hne]; [reflexivity|].
    rewrite (IH _ _ H j) by lia. exact E.
  - injection H as <-. by replace j with o by lia.
Qed.

Lemma frame2note_step_inv q f frame nt :
  f + 1 < length q ->
  frame2note_inv q f (frame, nt) ->
  match frame2note_step (Some (frame, nt)) f with
  | Some st' => frame2note_inv q (S f) st'
  | None => True
  end.
Proof.
  intros Hf (runs & hi & Hnt & Hlen & Hz & Hq & Hall & Hord).
  cbn [fst snd] in *.
  cbn [frame2note_step mbind option_bind].
  destruct (Z.eqb_spec (frame !!! f) 0) as [E0|E0]; cbn [negb].
  - exists runs, hi. cbn [fst snd].
    split; [exact Hnt|]. split; [exact Hlen|].
    split; [intros k Hk; apply Hz; lia|].
    split; [intros k Hk; apply Hq; lia|]. split; [|exact Hord].
    eapply Forall_impl; [exact Hall|]. intros r [Hr He]. split; [exact Hr|lia].
  - assert (hi <= f) as Hhi.
    { destruct (decide (hi <= f)); [done|]. exfalso. apply E0, Hz. lia. }
    destruct (run_end (length frame - (f + 1)) frame f) as [o|] eqn:Er;
      cbn [mbind option_bind]; [|done].
    pose proof (run_end_equal _ _ _ _ Er) as Heq.
    apply run_end_Some in Er as [Ho Hnext].
    set (r := Run (frame !!! f) f (o - f + 1)).
    exists (runs ++ [r]), (S o). cbn [fst snd].
    split; [by rewrite Hnt, map_app|].
    split; [by rewrite zero_frames_length|].
    split; [|split; [|split]].
    + intros k Hk. rewrite zero_frames_lookup by lia.
      assert ((f <=? k) && (k <=? o) = true) as ->; [|reflexivity].
      apply andb_true_iff. split; apply Nat.leb_le; lia.
    + intros k Hk. rewrite zero_frames_lookup by lia.
      assert ((f <=? k) && (k <=? o) = false) as ->.
      { apply andb_false_iff. right. apply Nat.leb_gt. lia. }
      apply Hq. lia.
    + apply Forall_app. split.
      * eapply Forall_impl; [exact Hall|]. intros x [Hx He].
        split; [exact Hx|lia].
      * apply Forall_singleton. unfold is_run, r.
        cbn [run_pitch run_start run_frames].
        split; [|lia]. split; [exact E0|]. split; [lia|]. split; [lia|].
        split.
        -- intros k Hk. rewrite <- (Heq k) by lia.
           rewrite Hq by lia. apply list_lookup_lookup_total_lt. lia.
        -- replace (f + (o - f + 1)) with (o + 1) by lia.
           rewrite (list_lookup_lookup_total_lt q (o + 1)) by lia.
           intros [= Hp]. apply Hnext.
           rewrite (Heq o) by lia. rewrite <- Hp. apply Hq. lia.
    + intros i j a b Hij Ha Hb.
      destruct (decide (j < length runs)) as [Hj|Hj].
      * rewrite lookup_app_l in Ha, Hb by lia. by apply (Hord i j).
      * assert (j = length runs) as ->.
        { apply lookup_lt_Some in Hb. rewrite length_app in Hb.
          cbn [length] in Hb. lia. }
        rewrite lookup_app_l in Ha by lia.
        rewrite lookup_app_r in Hb by lia.
        replace (length runs - length runs) with 0 in Hb by lia.
        injection Hb as <-. unfold r. cbn [run_start].
        destruct (Forall_lookup_1 _ _ _ _ Hall Ha) as [_ He]. lia.
Qed.

Lemma frame2note_steps_inv q m : forall f frame nt,
  f + m + 1 <= length q ->
  frame2note_inv q f (frame, nt) ->
  match foldl frame2note_step (Some (frame, nt)) (seq f m) with
  | Some st' => frame2note_inv q (f + m) st'
  | None => True
  end.
Proof.
  induction m as [|m IH]; intros f frame nt Hf Hinv; cbn [seq foldl].
  - by rewrite Nat.add_0_r.
  - pose proof (frame2note_step_inv q f frame nt ltac:(lia) Hinv) as Hstep.
    destruct (frame2note_step (Some (frame, nt)) f) as [[frame' nt']|];
      [|by rewrite frame2note_step_None].
    replace (f + S m) with (S f + m) by lia.
    apply IH; [lia|exact Hstep].
Qed.

(** X10.  When [frame2note] returns, its notes are, one for one and in
    order, runs of frames of the contour, with the first frame and the
    number of frames of each run multiplied by [hop] and divided by
    [sr].  Every run is voiced and not empty, its frames all hold its
    pitch in the contour, it stops before the last frame and the frame
    after it holds another value; the runs are in order and do not
    overlap. *)
Theorem frame2note_runs quantised_melody hop sr nt :
  frame2note quantised_melody hop sr = Some nt ->
  exists runs,
    nt = map (note_of_run hop sr) runs
    /\ Forall (is_run quantised_melody) runs
    /\ ordered_runs runs.
Proof.
  intros Hf. unfold frame2note in Hf.
  destruct (decide (length quantised_melody = 0)) as [E0|E0].
  { rewrite E0 in Hf. cbn in Hf. injection Hf as <-.
    exists []. split; [reflexivity|]. split; [constructor|].
    intros i j a b _ Ha. done. }
  pose proof (frame2note_steps_inv quantised_melody
                (length quantised_melody - 1) 0 quantised_melody []
                ltac:(lia)) as Hinv.
  destruct (foldl frame2note_step _ _) as [[frame' nt']|]; [|done].
  cbn [mbind option_bind] in Hf. injection Hf as <-.
  destruct Hinv as (runs & hi & Hnt & _ & _ & _ & Hall & Hord).
  { exists [], 0. cbn [fst snd map].
    split; [reflexivity|]. split; [reflexivity|].
    split; [intros k Hk; lia|]. split; [reflexivity|].
    split; [constructor|]. intros i j a b _ Ha. done. }
  cbn [fst snd] in *. exists runs.
  split; [|split; [|exact Hord]].
  - rewrite Hnt, map_map. reflexivity.
  - eapply Forall_impl; [exact Hall|]. by intros r [Hr _].
Qed.

Lemma frame2note_runs_witness :
  exists runs,
    ladder_five = map (note_of_run 256 44100) runs
    /\ Forall (is_run ladder_frames) runs
    /\ ordered_runs runs.
Proof.
  apply (frame2note_runs ladder_frames 256 44100 ladder_five).
  reflexivity.
Defined.

Lemma frame2note_steps_silent m : forall f (frame : list Z) nt,
  (forall i, f <= i < f + m -> frame !!! i = 0%Z) ->
  foldl frame2note_step (Some (frame, nt)) (seq f m) = Some (frame, nt).
Proof.
  induction m as [|m IH]; intros f frame nt Hz; cbn [seq foldl];
    [reflexivity|].
  cbn [frame2note_step mbind option_bind].
  rewrite (Hz f) by lia. cbn [Z.eqb negb].
  apply IH. intros i Hi. apply Hz. lia.
Qed.

(** X11.  A contour in which every frame but possibly the last one is
    unvoiced gives no note: the last frame never starts a note. *)
Theorem frame2note_silent (quantised_melody : list Z) hop sr :
  (forall i, i + 1 < length quantised_melody -> quantised_melody !!! i = 0%Z) ->
  frame2note quantised_melody hop sr = Some [].
Proof.
  intros Hz. unfold frame2note.
  rewrite frame2note_steps_silent; [reflexivity|].
  intros i Hi. apply Hz. lia.
Qed.

Lemma frame2note_silent_witness :
  frame2note [0; 0; 0; 64]%Z 256 44100 = Some [].
Proof.
  apply (frame2note_silent [0; 0; 0; 64]%Z 256 44100).
  intros i Hi. cbn [length] in Hi.
  destruct i as [|[|[|i]]]; [reflexivity..|lia].
Defined.

End frame2note_more.

Section long_slide_more.

Lemma inside_true t n :
  Num.gtb t (onset n) && Num.ltb t (onset n + duration n) = true
  <-> inside t n.
Proof.
  unfold inside. by rewrite andb_true_iff, num_gtb_true, num_ltb_true.
Qed.

Lemma slide_note_step_None nt seg r_mn :
  slide_note_step nt seg None r_mn = None.
Proof. reflexivity. Qed.

Lemma slide_note_steps_None nt seg l :
  foldl (slide_note_step nt seg) None l = None.
Proof. induction l as [|i l IH]; [reflexivity|exact IH]. Qed.

Lemma slide_segments_None nt l lss :
  foldl (fun st seg => foldl (slide_note_step nt seg) st l) None lss = None.
Proof.
  induction lss as [|seg lss IH]; [reflexivity|].
  cbn [foldl]. by rewrite slide_note_steps_None.
Qed.

Lemma slide_note_step_skip nt seg st r_mn :
  ~ inside seg.1 (nt !!! r_mn) -> slide_note_step nt seg st r_mn = st.
Proof.
  intros Hn. destruct st as [[ls d]|]; [|reflexivity].
  cbn [slide_note_step mbind option_bind].
  destruct (_ && _) eqn:E; [|reflexivity].
  by apply inside_true in E.
Qed.


Lemma slide_note_step_hit nt seg ls d r_mn :
  inside seg.1 (nt !!! r_mn) ->
  slide_note_step nt seg (Some (ls, d)) r_mn
  = (let d' := match slide_walk (drop (S r_mn) nt) (onset (nt !!! r_mn)) seg.2
               with Some x => Some x | None => d end in
     x ← d';
     Some (ls ++ [Note (pitch (nt !!! r_mn)) (onset (nt !!! r_mn)) x], d')).
Proof.
  intros Hin. apply inside_true in Hin.
  cbn [slide_note_step mbind option_bind]. by rewrite Hin.
Qed.



Lemma slide_note_steps_rows (P : note -> Prop) nt seg :
  (forall r d, r ∈ nt -> inside seg.1 r -> P (Note (pitch r) (onset r) d)) ->
  forall m f ls d ls' d',
  f + m <= length nt -> Forall P ls ->
  foldl (slide_note_step nt seg) (Some (ls, d)) (seq f m) = Some (ls', d') ->
  Forall P ls'.
Proof.
  intros HP. induction m as [|m IH]; intros f ls d ls' d' Hf Hls;
    cbn [seq foldl].
  - intros [= <- <-]. exact Hls.
  - destruct (Num.gtb seg.1 (onset (nt !!! f))
               && Num.ltb seg.1 (onset (nt !!! f) + duration (nt !!! f)))
      eqn:Hin;
      [apply inside_true in Hin
      |assert (~ inside seg.1 (nt !!! f)) as Hin'
         by (intros H; apply inside_true in H; congruence);
       clear Hin; rename Hin' into Hin].
    + rewrite slide_note_step_hit by exact Hin. cbn zeta.
      destruct (match slide_walk _ _ _ with Some x => Some x | None => d end)
        as [x|]; cbn [mbind option_bind].
      * apply IH; [lia|]. apply Forall_app. split; [exact Hls|].
        apply Forall_singleton. apply HP; [|exact Hin].
        apply list_elem_of_lookup_total_2. lia.
      * by rewrite slide_note_steps_None.
    + rewrite slide_note_step_skip by exact Hin. apply IH; [lia|exact Hls].
Qed.

(** X13.  Every note that [long_slide_sec_2_long_slide] returns takes its
    pitch and its onset from a row of the note table that strictly
    contains the start of one of the sections. *)
Theorem long_slide_notes_from_rows long_slide_sec nt out :
  long_slide_sec_2_long_slide long_slide_sec nt = Some out ->
  Forall (fun n => exists r seg,
            r ∈ nt /\ seg ∈ long_slide_sec /\ inside seg.1 r
            /\ pitch n = pitch r /\ onset n = onset r) out.
Proof.
  unfold long_slide_sec_2_long_slide.
  set (P := fun n : note => exists r seg, r ∈ nt /\ seg ∈ long_slide_sec
              /\ inside seg.1 r /\ pitch n = pitch r /\ onset n = onset r).
  assert (forall lss ls d ls' d',
            (forall seg, seg ∈ lss -> seg ∈ long_slide_sec) -> Forall P ls ->
            foldl (fun st seg =>
                     foldl (slide_note_step nt seg) st (seq 0 (length nt)))
                  (Some (ls, d)) lss = Some (ls', d') ->
            Forall P ls') as Hfold.
  { induction lss as [|seg lss IH]; intros ls d ls' d' Hsub Hls;
      cbn [foldl].
    - intros [= <- <-]. exact Hls.
    - destruct (foldl (slide_note_step nt seg) (Some (ls, d))
                  (seq 0 (length nt))) as [[ls1 d1]|] eqn:E1.
      + apply IH;
          [intros s Hs; apply Hsub; by apply list_elem_of_further|].
        eapply (slide_note_steps_rows P nt seg); [| |exact Hls|exact E1];
          [|lia].
        intros r x Hr Hin. exists r, seg.
        split; [exact Hr|].
        split; [apply Hsub, list_elem_of_here|]. by split.
      + by rewrite slide_segments_None. }
  intros Hout.
  destruct (foldl _ _ long_slide_sec) as [[ls' d']|] eqn:E; [|done].
  cbn in Hout. injection Hout as <-.
  eapply Hfold; [| |exact E]; [done|constructor].
Qed.

Lemma long_slide_notes_from_rows_witness :
  Forall (fun n => exists r seg,
            r ∈ [Note 60 0 1; Note 62 1 1; Note 64 2 1]
            /\ seg ∈ [((1#2), (3#2))%Q] /\ inside seg.1 r
            /\ pitch n = pitch r /\ onset n = onset r)
         [Note 60 0 2].
Proof.
  apply (long_slide_notes_from_rows [((1#2), (3#2))%Q]
           [Note 60 0 1; Note 62 1 1; Note 64 2 1]).
  reflexivity.
Defined.




End long_slide_more.

Section labels.
Import PullHammSlide Labels.

Lemma relabel_rows v a cls :
  relabel v a cls
  = map (fun c => Cand (c_start c) (c_end c)
                    (if (c_label c =? v)%Z then (- a)%Z else c_label c)) cls.
Proof.
  unfold relabel. apply map_ext. intros [s e l]. cbn [c_start c_end c_label].
  by destruct (l =? v)%Z.
Qed.

Lemma relabel_all_rows items target : forall cls,
  relabel_all items target cls
  = map (fun c => Cand (c_start c) (c_end c)
                    (label_walk items target (c_label c))) cls.
Proof.
  unfold relabel_all, label_walk.
  induction items as [|[k v] items IH]; intros cls; cbn [foldl fst snd].
  - symmetry. erewrite map_ext; [apply map_id|]. by intros [s e l].
  - rewrite IH. destruct (dict_get k target) as [a|]; [|reflexivity].
    rewrite relabel_rows, map_map. reflexivity.
Qed.

Lemma abs_relabel_all_rows items target cls :
  abs_labels (relabel_all items target cls)
  = map (fun c => Cand (c_start c) (c_end c)
                    (Z.abs (label_walk items target (c_label c)))) cls.
Proof. unfold abs_labels. by rewrite relabel_all_rows, map_map. Qed.

Lemma label_walk_no_match items target l :
  Forall (fun kv => kv.2 <> l) items -> label_walk items target l = l.
Proof.
  unfold label_walk. induction 1 as [|[k v] items Hv _ IH];
    cbn [foldl fst snd] in *; [reflexivity|].
  destruct (dict_get k target) as [a|]; [|exact IH].
  destruct (Z.eqb_spec l v) as [->|_]; [done|exact IH].
Qed.

Lemma translated_cons k v items target l :
  translated ((k, v) :: items) target l
  = match dict_get k target with
    | Some a => if (l =? v)%Z then a else translated items target l
    | None => translated items target l
    end.
Proof.
  assert (translated ((k, v) :: items) target l
          = if decide (v = l /\ is_Some (dict_get k target))
            then default 0%Z (dict_get k target)
            else translated items target l) as ->.
  { unfold translated. cbn [list_find fst snd].
    destruct (decide _); [reflexivity|].
    destruct (list_find _ items) as [[i [k' v']]|]; reflexivity. }
  destruct (decide _) as [[-> [a Ha]]|Hn].
  - rewrite Ha, Z.eqb_refl. reflexivity.
  - destruct (dict_get k target) as [a|] eqn:Ea; [|reflexivity].
    destruct (Z.eqb_spec l v) as [->|_]; [|reflexivity].
    exfalso. apply Hn. by split.
Qed.

Lemma label_walk_cons k v items target l :
  label_walk ((k, v) :: items) target l
  = label_walk items target
      match dict_get k target with
      | Some a => if (l =? v)%Z then (- a)%Z else l
      | None => l
      end.
Proof. reflexivity. Qed.

(** Targets are positive: a label that was translated is negative and
    is not translated again. *)
Lemma label_walk_translated_pos items target l :
  (0 <= l)%Z ->
  Forall (fun kv => (0 <= kv.2)%Z) items ->
  (forall k v a, (k, v) ∈ items -> dict_get k target = Some a -> (0 < a)%Z) ->
  Z.abs (label_walk items target l) = translated items target l.
Proof.
  intros Hl Hv. induction Hv as [|[k v] items Hv Hvs IH]; intros Ha.
  - cbn. lia.
  - rewrite label_walk_cons, translated_cons.
    assert (Z.abs (label_walk items target l) = translated items target l)
      as IH'.
    { apply IH. intros k' v' a' Hin. apply (Ha k' v').
      by apply list_elem_of_further. }
    destruct (dict_get k target) as [a|] eqn:Ea; [|exact IH'].
    destruct (Z.eqb_spec l v) as [->|_]; [|exact IH'].
    pose proof (Ha k v a (list_elem_of_here _ _) Ea) as Hpos.
    rewrite label_walk_no_match; [lia|].
    eapply Forall_impl; [exact Hvs|]. cbn. intros kv Hkv. lia.
Qed.

(** Values are distinct and a target may be 0 for the value 0 only. *)
Lemma label_walk_translated_nodup items target l :
  (0 <= l)%Z ->
  Forall (fun kv => (0 <= kv.2)%Z) items ->
  NoDup items.*2 ->
  (forall k v a, (k, v) ∈ items -> dict_get k target = Some a ->
                 (0 <= a)%Z /\ (a = 0%Z -> v = 0%Z)) ->
  Z.abs (label_walk items target l) = translated items target l.
Proof.
  intros Hl Hv. induction Hv as [|[k v] items Hv Hvs IH]; intros Hnd Ha.
  - cbn. lia.
  - rewrite label_walk_cons, translated_cons.
    cbn [fmap list_fmap snd] in Hnd. apply NoDup_cons in Hnd as [Hnv Hnd].
    assert (Z.abs (label_walk items target l) = translated items target l)
      as IH'.
    { apply IH; [exact Hnd|].
      intros k' v' a' Hin. apply (Ha k' v'). by apply list_elem_of_further. }
    destruct (dict_get k target) as [a|] eqn:Ea; [|exact IH'].
    destruct (Z.eqb_spec l v) as [->|_]; [|exact IH'].
    destruct (Ha k v a (list_elem_of_here _ _) Ea) as [Hpos H0].
    rewrite label_walk_no_match; [lia|].
    apply Forall_forall. intros [k' v'] Hin. cbn [snd]. intros E.
    cbn [snd] in Hv.
    destruct (decide (a = 0%Z)) as [->|Hne].
    + rewrite (H0 eq_refl) in Hnv. apply Hnv.
      apply list_elem_of_fmap. exists (k', v'). split; [cbn; lia|exact Hin].
    + pose proof (proj1 (Forall_forall _ _) Hvs _ Hin) as Hv'.
      cbn in Hv'. lia.
Qed.

Lemma dict_get_elem k v d : dict_get k d = Some v -> (k, v) ∈ d.
Proof.
  induction d as [|[k' v'] d IH]; cbn [dict_get]; [done|].
  destruct (String.eqb_spec k k') as [->|_].
  - intros [= ->]. apply list_elem_of_here.
  - intros H. apply list_elem_of_further, IH, H.
Qed.

Lemma dict_get_nodup k v d :
  NoDup d.*1 -> (k, v) ∈ d -> dict_get k d = Some v.
Proof.
  induction d as [|[k' v'] d IH]; intros Hnd Hin; [by apply elem_of_nil in Hin|].
  cbn [fmap list_fmap fst] in Hnd. apply NoDup_cons in Hnd as [Hk Hnd].
  cbn [dict_get]. apply elem_of_cons in Hin as [[= -> ->]|Hin].
  - by rewrite String.eqb_refl.
  - destruct (String.eqb_spec k k') as [->|_]; [|by apply IH].
    exfalso. apply Hk. apply list_elem_of_fmap. by exists (k', v).
Qed.

Lemma translated_same items target l :
  NoDup target.*1 -> (forall kv, kv ∈ items -> kv ∈ target) ->
  translated items target l = l.
Proof.
  intros Hnd. induction items as [|[k v] items IH]; intros Hsub;
    [reflexivity|].
  rewrite translated_cons.
  rewrite (dict_get_nodup k v target Hnd)
    by apply Hsub, list_elem_of_here.
  destruct (Z.eqb_spec l v) as [->|_]; [reflexivity|].
  apply IH. intros kv Hkv. by apply Hsub, list_elem_of_further.
Qed.

Lemma translated_unique items target k l a :
  (forall k' v', (k', v') ∈ items -> v' = l -> k' = k) ->
  (k, l) ∈ items -> dict_get k target = Some a ->
  translated items target l = a.
Proof.
  intros Hu Hin Ha. induction items as [|[k' v'] items IH];
    [by apply elem_of_nil in Hin|].
  rewrite translated_cons.
  destruct (Z.eqb_spec l v') as [->|Hne].
  - rewrite (Hu k' v' (list_elem_of_here _ _) eq_refl), Ha. reflexivity.
  - assert (translated items target l = a) as ->.
    { apply IH.
      - intros k'' v'' Hin'. apply Hu. by apply list_elem_of_further.
      - apply elem_of_cons in Hin as [[= -> ->]|Hin]; [done|exact Hin]. }
    by destruct (dict_get k' target).
Qed.

Lemma answer_positive k a :
  dict_get k answer_tech_index_dic = Some a -> (0 < a)%Z.
Proof.
  unfold answer_tech_index_dic. cbn [dict_get].
  repeat (destruct (String.eqb k _); [intros [= <-]; lia|]). done.
Qed.

Lemma dict_set_elem k v d kv :
  kv ∈ dict_set k v d -> kv = (k, v) \/ kv ∈ d.
Proof.
  induction d as [|[k' v'] d IH]; cbn [dict_set].
  - intros ->%list_elem_of_singleton. by left.
  - destruct (String.eqb k k').
    + intros [->|H]%elem_of_cons; [by left|].
      right. by apply list_elem_of_further.
    + intros [->|H]%elem_of_cons; [right; apply list_elem_of_here|].
      destruct (IH H) as [->|H']; [by left|].
      right. by apply list_elem_of_further.
Qed.

Lemma dict_set_here k v d : (k, v) ∈ dict_set k v d.
Proof.
  induction d as [|[k' v'] d IH]; cbn [dict_set];
    [apply list_elem_of_here|].
  destruct (String.eqb k k'); [apply list_elem_of_here|].
  by apply list_elem_of_further.
Qed.

Lemma nodup_values_key (d : tech_index) k1 k2 v :
  NoDup d.*2 -> (k1, v) ∈ d -> (k2, v) ∈ d -> k1 = k2.
Proof.
  induction d as [|[k v0] d IH]; intros Hnd H1 H2;
    [by apply elem_of_nil in H1|].
  cbn [fmap list_fmap snd] in Hnd. apply NoDup_cons in Hnd as [Hv Hnd].
  assert (forall k', (k', v0) ∈ d -> False) as Hno.
  { intros k' Hin. apply Hv. apply list_elem_of_fmap. by exists (k', v0). }
  apply elem_of_cons in H1 as [[= -> ->]|H1];
    apply elem_of_cons in H2 as [[= E ]|H2]; subst.
  - reflexivity.
  - destruct (Hno _ H2).
  - destruct (Hno _ H1).
  - by apply IH.
Qed.

Lemma labels_mapped_walk items target f cls :
  Forall (fun c => Z.abs (label_walk items target (c_label c))
                   = f (c_label c)) cls ->
  labels_mapped f cls (abs_labels (relabel_all items target cls)).
Proof.
  intros H. unfold labels_mapped. rewrite abs_relabel_all_rows.
  apply Forall_fmap_ext_1. eapply Forall_impl; [exact H|].
  cbn. by intros c ->.
Qed.

(** X15.  Labels and dictionary values are not negative, the values of
    [tech_index_single] are distinct, and a target is not negative and is
    0 only for the value 0.  Then every row keeps its times and its label
    is translated once: a label that is the value of a key that
    [tech_index_all] has becomes the value of that key there, whatever
    the other keys are, and any other label is kept. *)
Theorem convert_double_model_translates cls single all :
  Forall (fun c => (0 <= c_label c)%Z) cls ->
  Forall (fun kv => (0 <= kv.2)%Z) single ->
  NoDup single.*2 ->
  (forall k v a, (k, v) ∈ single -> dict_get k all = Some a ->
                 (0 <= a)%Z /\ (a = 0%Z -> v = 0%Z)) ->
  labels_mapped (translated single all) cls
    (convert_double_model_index_2_single_model cls single all).
Proof.
  intros Hl Hv Hnd Ha. apply labels_mapped_walk.
  eapply Forall_impl; [exact Hl|]. cbn. intros c Hc.
  by apply label_walk_translated_nodup.
Qed.

Lemma convert_double_model_translates_witness :
  labels_mapped
    (translated [("bend", 0); ("normal", 1); ("pull", 2); ("slide", 3)]%Z
       [("bend", 0); ("hamm", 1); ("normal", 2); ("pull", 3); ("slide", 4)]%Z)
    [Cand 0 1 1; Cand 1 2 2; Cand 2 3 0; Cand 3 4 7]
    (convert_double_model_index_2_single_model
       [Cand 0 1 1; Cand 1 2 2; Cand 2 3 0; Cand 3 4 7]
       [("bend", 0); ("normal", 1); ("pull", 2); ("slide", 3)]%Z
       [("bend", 0); ("hamm", 1); ("normal", 2); ("pull", 3); ("slide", 4)]%Z).
Proof.
  apply convert_double_model_translates.
  - repeat constructor; by vm_compute.
  - repeat constructor; by vm_compute.
  - apply (bool_decide_unpack _). by vm_compute.
  - intros k v a Hin Hget.
    repeat (apply elem_of_cons in Hin as [[= -> ->]|Hin];
            [vm_compute in Hget; injection Hget as <-; lia|]).
    by apply elem_of_nil in Hin.
Defined.

(** X16.  Translating with one and the same dictionary on both sides
    changes nothing, when its keys and its values are distinct and no
    value and no label is negative. *)
Theorem convert_double_model_same_dictionary cls d :
  Forall (fun c => (0 <= c_label c)%Z) cls ->
  Forall (fun kv => (0 <= kv.2)%Z) d ->
  NoDup d.*1 -> NoDup d.*2 ->
  convert_double_model_index_2_single_model cls d d = cls.
Proof.
  intros Hl Hv Hk Hnd.
  pose proof (labels_mapped_walk d d (fun l => l) cls) as H.
  unfold labels_mapped in H.
  unfold convert_double_model_index_2_single_model. rewrite H.
  - erewrite map_ext; [apply map_id|]. by intros [s e l].
  - eapply Forall_impl; [exact Hl|]. cbn. intros c Hc.
    rewrite label_walk_translated_nodup; [|exact Hc|exact Hv|exact Hnd|].
    + by apply translated_same.
    + intros k v a Hin Hget.
      rewrite (dict_get_nodup k v d Hk Hin) in Hget. injection Hget as <-.
      split; [|done].
      exact (proj1 (Forall_forall _ _) Hv _ Hin).
Qed.

Lemma convert_double_model_same_dictionary_witness :
  convert_double_model_index_2_single_model
    [Cand 0 1 1; Cand 1 2 3; Cand 2 3 0]
    [("bend", 0); ("hamm", 1); ("normal", 2); ("slide", 3)]%Z
    [("bend", 0); ("hamm", 1); ("normal", 2); ("slide", 3)]%Z
  = [Cand 0 1 1; Cand 1 2 3; Cand 2 3 0].
Proof.
  apply convert_double_model_same_dictionary.
  - repeat constructor; by vm_compute.
  - repeat constructor; by vm_compute.
  - apply (bool_decide_unpack _). by vm_compute.
  - apply (bool_decide_unpack _). by vm_compute.
Defined.

(** X17.  A dictionary with the key pull, without the key hamm and
    without the key bend: reading [tech_index_dic_pseudo['bend']]
    raises. *)
Theorem convert_index_missing_bend cls d p :
  dict_get "pull" d = Some p -> dict_get "hamm" d = None ->
  dict_get "bend" d = None ->
  convert_index_clf_cls_2_anno_tech cls d = None.
Proof.
  intros Hp Hh Hb. unfold convert_index_clf_cls_2_anno_tech, pseudo_dic.
  by rewrite Hp, Hh, Hb.
Qed.

Lemma convert_index_missing_bend_witness :
  convert_index_clf_cls_2_anno_tech [Cand 0 1 0]
    [("normal", 0); ("pull", 1); ("slide", 2)]%Z = None.
Proof.
  apply (convert_index_missing_bend _ _ 1%Z); reflexivity.
Defined.

(** X18.  When [convert_index_clf_cls_2_anno_tech] returns, the rows are
    those of [cls_result] with the same times, one for one, and no label
    is negative. *)
Theorem convert_index_frame cls d out :
  convert_index_clf_cls_2_anno_tech cls d = Some out ->
  Forall2 (fun c o => c_start o = c_start c /\ c_end o = c_end c
                      /\ (0 <= c_label o)%Z) cls out.
Proof.
  unfold convert_index_clf_cls_2_anno_tech.
  destruct (pseudo_dic d) as [d'|]; [|done]. cbn [mbind option_bind].
  intros [= <-]. rewrite abs_relabel_all_rows.
  apply Forall2_fmap_r, Forall2_same_length_lookup_2; [reflexivity|].
  intros i c c' Hc Hc'. rewrite Hc in Hc'. injection Hc' as <-.
  cbn [c_start c_end c_label].
  split; [reflexivity|]. split; [reflexivity|apply Z.abs_nonneg].
Qed.

Lemma convert_index_frame_witness :
  Forall2 (fun c o => c_start o = c_start c /\ c_end o = c_end c
                      /\ (0 <= c_label o)%Z)
    [Cand 0 1 0; Cand 1 2 3]
    [Cand 0 1 4; Cand 1 2 8].
Proof.
  apply (convert_index_frame _
           [("bend", 0); ("hamm", 1); ("normal", 2); ("slide", 3)]%Z).
  reflexivity.
Defined.

(** X19.  The dictionary has the key hamm or has not the key pull, and
    no label and no value is negative.  Every label that is the value of
    a technique of the annotation (bend, release, pull, hamm, slide,
    vibrato) becomes the column of that technique, 4, 5, 6, 7, 8 or 11
    (of the first such key in the order of the iteration, when several
    have the value), and every other label is kept. *)
Theorem convert_index_translates cls d :
  dict_get "pull" d = None \/ is_Some (dict_get "hamm" d) ->
  Forall (fun c => (0 <= c_label c)%Z) cls ->
  Forall (fun kv => (0 <= kv.2)%Z) d ->
  exists out, convert_index_clf_cls_2_anno_tech cls d = Some out
              /\ labels_mapped (translated d answer_tech_index_dic) cls out.
Proof.
  intros Hd Hl Hv. eexists. split.
  - unfold convert_index_clf_cls_2_anno_tech, pseudo_dic.
    destruct Hd as [->|[h ->]]; [reflexivity|].
    by destruct (dict_get "pull" d).
  - apply labels_mapped_walk.
    eapply Forall_impl; [exact Hl|]. cbn. intros c Hc.
    apply label_walk_translated_pos; [exact Hc|exact Hv|].
    intros k v a _. apply answer_positive.
Qed.

Lemma convert_index_translates_witness :
  exists out,
    convert_index_clf_cls_2_anno_tech
      [Cand 0 1 0; Cand 1 2 3; Cand 2 3 2]
      [("bend", 0); ("hamm", 1); ("normal", 2); ("slide", 3)]%Z = Some out
    /\ labels_mapped
         (translated [("bend", 0); ("hamm", 1); ("normal", 2); ("slide", 3)]%Z
            answer_tech_index_dic)
         [Cand 0 1 0; Cand 1 2 3; Cand 2 3 2] out.
Proof.
  apply convert_index_translates.
  - left. reflexivity.
  - repeat constructor; by vm_compute.
  - repeat constructor; by vm_compute.
Defined.

(** X20.  The dictionary has the key pull and not the key hamm, its
    values are distinct and not negative, and bend has the value [b].
    Every row whose label is [b] ends with the label 5, the column of
    the release, not 4, the column of the bend. *)
Theorem convert_index_bend_as_release cls d p b out i c :
  dict_get "pull" d = Some p -> dict_get "hamm" d = None ->
  dict_get "bend" d = Some b ->
  NoDup d.*2 -> Forall (fun kv => (0 <= kv.2)%Z) d ->
  convert_index_clf_cls_2_anno_tech cls d = Some out ->
  cls !! i = Some c -> c_label c = b ->
  c_label <$> out !! i = Some 5%Z.
Proof.
  intros Hp Hh Hb Hnd Hv Hout Hc Hl.
  unfold convert_index_clf_cls_2_anno_tech, pseudo_dic in Hout.
  rewrite Hp, Hh, Hb in Hout. cbn [mbind option_bind] in Hout.
  injection Hout as <-. rewrite abs_relabel_all_rows.
  rewrite list_lookup_fmap, Hc. cbn [fmap option_fmap option_map c_label].
  f_equal. rewrite Hl.
  pose proof (dict_get_elem _ _ _ Hb) as Hbin.
  assert (0 <= b)%Z as Hb0
    by exact (proj1 (Forall_forall _ _) Hv _ Hbin).
  set (d' := dict_pop "bend" (dict_set "release" b d)).
  assert (forall kv, kv ∈ d' -> kv.1 <> "bend"
                     /\ (kv = ("release", b) \/ kv ∈ d)) as Hd'.
  { intros kv [Hne Hin]%list_elem_of_filter.
    split; [exact Hne|]. by apply dict_set_elem. }
  rewrite label_walk_translated_pos.
  - apply (translated_unique d' answer_tech_index_dic "release");
      [| |reflexivity].
    + intros k' v' Hin ->. destruct (Hd' _ Hin) as [Hne [[= -> ]|Hin']];
        [reflexivity|]. cbn [fst] in Hne. exfalso. apply Hne.
      exact (nodup_values_key d k' "bend" b Hnd Hin' Hbin).
    + apply list_elem_of_filter. split; [done|apply dict_set_here].
  - exact Hb0.
  - apply Forall_forall. intros kv Hin.
    destruct (Hd' _ Hin) as [_ [->|Hin']]; [exact Hb0|].
    exact (proj1 (Forall_forall _ _) Hv _ Hin').
  - intros k v a _. apply answer_positive.
Qed.

Lemma convert_index_bend_as_release_witness :
  convert_index_clf_cls_2_anno_tech [Cand 0 1 0; Cand 1 2 3]
    [("bend", 0); ("normal", 1); ("pull", 2); ("slide", 3)]%Z
  = Some [Cand 0 1 5; Cand 1 2 8]
  /\ c_label <$> [Cand 0 1 5; Cand 1 2 8] !! 0 = Some 5%Z.
Proof.
  split; [reflexivity|].
  apply (convert_index_bend_as_release [Cand 0 1 0; Cand 1 2 3]
           [("bend", 0); ("normal", 1); ("pull", 2); ("slide", 3)]%Z
           2%Z 0%Z [Cand 0 1 5; Cand 1 2 8] 0 (Cand 0 1 0));
    try reflexivity.
  - apply (bool_decide_unpack _). by vm_compute.
  - repeat constructor; by vm_compute.
Defined.

End labels.

Section merge_more.
Import BendRelease.

(** X21.  When no candidate is a bend (label 0, start not 0) that starts
    inside a note and ends inside the next one, the table is returned
    as it is. *)
Theorem merge_without_covering_bend esn result :
  (forall c, c ∈ result ->
     c_label c <> 0%Z \/ (c_start c == 0)%Q
     \/ forall k, k + 1 < length esn ->
          covers c (esn !!! k) (esn !!! (k + 1)) = false) ->
  merge_and_update_prebend_bend_release esn result = esn.
Proof.
  intros H. unfold merge_and_update_prebend_bend_release.
  rewrite foldl_id.
  - cbn [fst snd]. apply delete_from_nil.
  - intros i Hi. apply elem_of_seq in Hi.
    apply merge_candi_step_skip, H.
    apply list_elem_of_lookup_total_2. lia.
Qed.

Lemma merge_without_covering_bend_witness :
  merge_and_update_prebend_bend_release merge_example
    [Cand (1#2) (3#2) 1; Cand 0 (3#2) 0; Cand (1#4) (3#4) 0]
  = merge_example.
Proof.
  apply merge_without_covering_bend. intros c Hc.
  repeat (apply elem_of_cons in Hc as [->|Hc]).
  - left. by vm_compute.
  - right. left. by vm_compute.
  - right. right. intros k Hk. cbn [length merge_example] in Hk.
    assert (k = 0) as -> by lia. by vm_compute.
  - by apply elem_of_nil in Hc.
Defined.

Lemma col_set_cols_low (f : nat -> Q) r c :
  c < 6 ->
  col c (foldl (fun r c => set_col c (f c) r) r [6; 7; 8; 9; 10; 11])
  = col c r.
Proof.
  intros Hc. destruct r. cbn [foldl set_col].
  do 6 (destruct c as [|c]; [reflexivity|]). lia.
Qed.

Lemma e_onset_merged_row esn i cur :
  e_onset (merged_row esn i cur) = e_onset (esn !!! i).
Proof.
  change (col 1 (merged_row esn i cur) = col 1 (esn !!! i)).
  unfold merged_row. rewrite col_set_col_ne by lia.
  match goal with
  | |- col 1 (if ?b then _ else _) = _ => destruct b
  end; rewrite ?col_set_col_ne by lia;
    rewrite col_pitch_steps by lia;
    rewrite col_set_cols_low by lia; by rewrite col_set_col_ne by lia.
Qed.

Lemma Forall2_insert_r {A B} `{Inhabited B} (R : A -> B -> Prop)
    (l0 : list A) (l : list B) k y :
  Forall2 R l0 l -> (forall x, R x (l !!! k) -> R x y) ->
  Forall2 R l0 (<[k := y]> l).
Proof.
  intros HF Hy. destruct (decide (k < length l)) as [Hlt|Hge].
  - destruct (lookup_lt_is_Some_2 l k Hlt) as [b Hb].
    pose proof (Forall2_length _ _ _ HF) as Hlen.
    destruct (lookup_lt_is_Some_2 l0 k ltac:(lia)) as [a Ha].
    rewrite <- (list_insert_id l0 k a Ha).
    apply Forall2_insert; [exact HF|]. apply Hy.
    rewrite (list_lookup_total_correct _ _ _ Hb).
    exact (Forall2_lookup_lr _ _ _ _ _ _ HF Ha Hb).
  - rewrite list_insert_ge by lia. exact HF.
Qed.

Lemma merge_note_step_onsets esn0 index_candi st index_note :
  Forall2 (fun a b => e_onset b = e_onset a) esn0 st.1.1 ->
  Forall2 (fun a b => e_onset b = e_onset a) esn0
    (merge_note_step index_candi st index_note).1.1.
Proof.
  destruct st as [[esn result] del]. cbn [fst snd]. intros H.
  unfold merge_note_step.
  destruct (covers _ _ _); [|exact H].
  destruct (chain _ _ _ _ _) as [cc cn]. cbn [fst snd].
  apply Forall2_insert_r; [exact H|].
  intros x Hx. by rewrite e_onset_merged_row.
Qed.

Lemma merge_candi_step_onsets esn0 st index_candi :
  Forall2 (fun a b => e_onset b = e_onset a) esn0 st.1.1 ->
  Forall2 (fun a b => e_onset b = e_onset a) esn0
    (merge_candi_step st index_candi).1.1.
Proof.
  intros H. unfold merge_candi_step. destruct (_ && _); [|exact H].
  generalize (seq 0 (length st.1.1 - 1)). intros ns. revert st H.
  induction ns as [|n ns IH]; intros st H; cbn [foldl]; [exact H|].
  apply IH. by apply merge_note_step_onsets.
Qed.

(** X22.  The result of [merge_and_update_prebend_bend_release] is made
    of rows of the table, in their order and with their onsets: some
    rows are deleted, none is added or moved, and the onset column is
    never assigned. *)
Theorem merge_keeps_onsets esn result :
  exists esn',
    Forall2 (fun a b => e_onset b = e_onset a) esn esn'
    /\ sublist (merge_and_update_prebend_bend_release esn result) esn'.
Proof.
  unfold merge_and_update_prebend_bend_release.
  set (st := foldl merge_candi_step (esn, result, [])
               (seq 0 (length result))).
  exists st.1.1. split; [|apply delete_from_sublist].
  subst st. generalize (seq 0 (length result)). intros ns.
  assert (Forall2 (fun a b => e_onset b = e_onset a) esn
            (esn, result, @nil nat).1.1)
    as H0 by (apply Forall_Forall2_diag, Forall_forall; by intros).
  revert H0. generalize (esn, result, @nil nat). intros st.
  revert st. induction ns as [|n ns IH]; intros st H; cbn [foldl];
    [exact H|].
  apply IH. by apply merge_candi_step_onsets.
Qed.





End merge_more.

Section pull_hamm_slide_more.
Import PullHammSlide.

Lemma marks_only_refl r : marks_only r r.
Proof. split; [reflexivity|]. intros c. by left. Qed.

Lemma marks_only_trans r1 r2 r3 :
  marks_only r1 r2 -> marks_only r2 r3 -> marks_only r1 r3.
Proof.
  intros [Ha Hb] [Ha' Hb']. split.
  - intros c H6 H7 H8. rewrite Ha' by assumption. by apply Ha.
  - intros c. destruct (Hb' c) as [->|H]; [apply Hb|by right].
Qed.

Lemma marks_only_set c v r :
  (c = 6 \/ c = 7 \/ c = 8) -> (v = 1%Q \/ v = 2%Q) ->
  marks_only r (set_col c v r).
Proof.
  intros Hc Hv. split.
  - intros c' H6 H7 H8. apply col_set_col_ne. lia.
  - intros c'. destruct (decide (c' = c)) as [->|Hne].
    + right. rewrite col_set_col_eq by lia. exact Hv.
    + left. apply col_set_col_ne. lia.
Qed.

Lemma Forall2_marks_only_insert (l0 l : list esn_row) k c v :
  (c = 6 \/ c = 7 \/ c = 8) -> (v = 1%Q \/ v = 2%Q) ->
  Forall2 marks_only l0 l ->
  Forall2 marks_only l0 (<[k := set_col c v (l !!! k)]> l).
Proof.
  intros Hc Hv HF. destruct (decide (k < length l)) as [Hlt|Hge].
  - destruct (lookup_lt_is_Some_2 l k Hlt) as [b Hb].
    pose proof (Forall2_length _ _ _ HF) as Hlen.
    destruct (lookup_lt_is_Some_2 l0 k ltac:(lia)) as [a Ha].
    rewrite <- (list_insert_id l0 k a Ha).
    apply Forall2_insert; [exact HF|].
    rewrite (list_lookup_total_correct _ _ _ Hb).
    eapply marks_only_trans;
      [exact (Forall2_lookup_lr _ _ _ _ _ _ HF Ha Hb)
      |by apply marks_only_set].
  - rewrite list_insert_ge by lia. exact HF.
Qed.

Lemma mark_guarded_marks_only c i l0 esn :
  (c = 6 \/ c = 7 \/ c = 8) ->
  Forall2 marks_only l0 esn -> Forall2 marks_only l0 (mark_guarded c i esn).
Proof.
  intros Hc H. unfold mark_guarded.
  destruct (_ && _).
  - pose proof (Forall2_marks_only_insert l0 esn i c 1 Hc
                  ltac:(by left) H) as H1.
    pose proof (Forall2_marks_only_insert l0 _ (i + 1) c 2 Hc
                  ltac:(by right) H1) as H2.
    by rewrite list_lookup_total_insert_ne in H2 by lia.
  - destruct (_ && _); [|exact H].
    by apply Forall2_marks_only_insert; [|right|].
Qed.

Lemma mark_slide_marks_only i l0 esn :
  Forall2 marks_only l0 esn -> Forall2 marks_only l0 (mark_slide i esn).
Proof.
  intros H. unfold mark_slide.
  pose proof (Forall2_marks_only_insert l0 esn i 8 1 ltac:(lia)
                ltac:(by left) H) as H1.
  pose proof (Forall2_marks_only_insert l0 _ (i + 1) 8 2 ltac:(lia)
                ltac:(by right) H1) as H2.
  by rewrite list_lookup_total_insert_ne in H2 by lia.
Qed.

Lemma tag_note_step_marks_only d cand l0 esn index_note :
  Forall2 marks_only l0 esn ->
  Forall2 marks_only l0 (tag_note_step d cand esn index_note).
Proof.
  intros H. unfold tag_note_step.
  destruct (covers _ _ _); [|exact H].
  destruct (head _) as [t|]; [|exact H].
  destruct (String.eqb t "pull");
    [apply mark_guarded_marks_only; [lia|exact H]|].
  destruct (String.eqb t "hamm");
    [apply mark_guarded_marks_only; [lia|exact H]|].
  destruct (String.eqb t "slide"); [|exact H].
  by apply mark_slide_marks_only.
Qed.

Lemma tag_candi_step_marks_only d cand l0 esn :
  Forall2 marks_only l0 esn ->
  Forall2 marks_only l0 (tag_candi_step d esn cand).
Proof.
  intros H. unfold tag_candi_step. destruct (_ && _); [|exact H].
  generalize (seq 0 (length esn - 1)). intros ns. revert esn H.
  induction ns as [|n ns IH]; intros esn H; cbn [foldl]; [exact H|].
  apply IH. by apply tag_note_step_marks_only.
Qed.

(** X24.  [update_pull_hamm_slide] returns the rows of the table one for
    one.  No column other than pull, hamm and slide is changed; a value
    of these three that is changed becomes the start marker 1 or the
    stop marker 2; and a pull or a hammer marker that is set before the
    call is the same after it, whatever the candidates are. *)
Theorem update_pull_hamm_slide_frame esn result d :
  Forall2 (fun r r' => marks_only r r' /\ keeps 6 r r' /\ keeps 7 r r')
    esn (update_pull_hamm_slide esn result d).
Proof.
  assert (Forall2 marks_only esn (update_pull_hamm_slide esn result d))
    as Hm.
  { unfold update_pull_hamm_slide.
    assert (Forall2 marks_only esn esn) as H0
      by (apply Forall_Forall2_diag, Forall_forall; intros;
          apply marks_only_refl).
    revert H0. generalize esn at 2 4. intros esn' H. revert esn' H.
    induction result as [|cand result IH]; intros esn' H; cbn [foldl];
      [exact H|].
    apply IH. by apply tag_candi_step_marks_only. }
  pose proof (update_pull_hamm_slide_keeps 6 esn result d ltac:(lia)) as H6.
  pose proof (update_pull_hamm_slide_keeps 7 esn result d ltac:(lia)) as H7.
  apply Forall2_same_length_lookup_2; [by eapply Forall2_length|].
  intros i r r' Hr Hr'. split; [|split].
  - exact (Forall2_lookup_lr _ _ _ _ _ _ Hm Hr Hr').
  - exact (Forall2_lookup_lr _ _ _ _ _ _ H6 Hr Hr').
  - exact (Forall2_lookup_lr _ _ _ _ _ _ H7 Hr Hr').
Qed.

Lemma index_list_elem k d l :
  l ∈ index_list k d <-> dict_get k d = Some l.
Proof.
  unfold index_list. destruct (dict_get k d) as [v|].
  - rewrite list_elem_of_singleton. split; [by intros ->|by intros [= ->]].
  - split; [by intros ?%elem_of_nil|done].
Qed.

Lemma tag_candi_step_targeted d esn c :
  ~ targeted d c -> tag_candi_step d esn c = esn.
Proof.
  intros Hn. unfold tag_candi_step.
  destruct (bool_decide _) eqn:Eb; [|reflexivity].
  destruct (Num.neqb _ _) eqn:En; [|reflexivity].
  exfalso. apply Hn. apply bool_decide_eq_true_1 in Eb.
  apply num_neqb_true in En. split; [|exact En].
  rewrite !elem_of_app, !index_list_elem in Eb. exact Eb.
Qed.

(** X25.  A candidate changes something only when its label is the value
    of pull, hamm or slide in the dictionary and its start is not 0:
    with no such candidate the table is returned as it is.  So it is for
    a dictionary that has none of the three keys. *)
Theorem update_pull_hamm_slide_no_target esn result d :
  Forall (fun c => ~ targeted d c) result ->
  update_pull_hamm_slide esn result d = esn.
Proof.
  intros H. unfold update_pull_hamm_slide.
  induction H as [|c result Hc _ IH]; cbn [foldl]; [reflexivity|].
  by rewrite tag_candi_step_targeted.
Qed.

Lemma update_pull_hamm_slide_no_target_witness :
  update_pull_hamm_slide slid_once
    [Cand (1#2) (3#2) 0; Cand 0 (3#2) 4; Cand (1#2) (3#2) 2] tech_index_all
  = slid_once.
Proof.
  apply update_pull_hamm_slide_no_target.
  repeat constructor; intros [[H|[H|H]] Hs]; try discriminate H.
  by apply Hs.
Defined.

End pull_hamm_slide_more.

Section slow_bend_more.
Import SlowBend.

Lemma within_spec x n :
  Num.geb x (onset n) && Num.leb x (onset n + duration n) = true
  <-> within x n.
Proof.
  unfold within. by rewrite andb_true_iff, num_geb_true, num_leb_true.
Qed.

Lemma cad_inner_inv nt CAD p n pat st m :
  n + 3 < length nt -> pat ∈ CAD -> within pat.1 (nt !!! n) ->
  (m = n + 2 \/ m = n + 3) ->
  Forall (cad_note_of nt CAD) st.1 /\ length st.2 = length st.1 ->
  let st' := cad_inner nt p n pat.2 st m in
  Forall (cad_note_of nt CAD) st'.1 /\ length st'.2 = length st'.1.
Proof.
  intros Hn Hpat Hs Hm [Hall Hlen]. destruct st as [notes idx].
  cbn [fst snd] in *. unfold cad_inner.
  destruct (Num.geb pat.2 (onset (nt !!! m))
            && Num.leb pat.2 (onset (nt !!! m) + duration (nt !!! m)))
    eqn:Ee; [|by split].
  destruct ((2 <=? m - n) && (m - n <=? 3)
            && Num.leb (Qabs (pitch (nt !!! n) - pitch (nt !!! m))) 3)
    eqn:Ec; [|by split].
  cbn [fst snd]. split; [|rewrite !length_app; cbn [length]; lia].
  apply Forall_app. split; [exact Hall|]. apply Forall_singleton.
  exists n, m, pat. apply within_spec in Ee.
  apply andb_true_iff in Ec as [_ Ec]. apply num_leb_true in Ec.
  split; [exact Hn|]. split; [exact Hpat|]. split; [exact Hs|].
  split; [exact Hm|]. split; [exact Ee|]. split; [exact Ec|reflexivity].
Qed.

Lemma cad_notes_inv nt CAD p pat ns : forall st,
  pat ∈ CAD ->
  Forall (cad_note_of nt CAD) st.1 /\ length st.2 = length st.1 ->
  let st' := cad_notes nt p pat ns st in
  Forall (cad_note_of nt CAD) st'.1 /\ length st'.2 = length st'.1.
Proof.
  induction ns as [|n ns IH]; intros st Hpat Hst; cbn [cad_notes];
    [exact Hst|].
  destruct (Num.geb pat.1 (onset (nt !!! n))
            && Num.leb pat.1 (onset (nt !!! n) + duration (nt !!! n)))
    eqn:Es; [|by apply IH].
  destruct (Nat.leb_spec (length nt) (n + 3)) as [Hge|Hlt]; [exact Hst|].
  apply within_spec in Es.
  apply IH; [exact Hpat|]. cbn [foldl].
  apply (cad_inner_inv nt CAD p n pat _ (n + 3)); [lia|done..|by right|].
  apply (cad_inner_inv nt CAD p n pat _ (n + 2)); [lia|done..|by left|].
  exact Hst.
Qed.

Lemma cad_patterns_inv nt CAD ps : forall st,
  (forall p, p ∈ ps -> p < length CAD) ->
  Forall (cad_note_of nt CAD) st.1 /\ length st.2 = length st.1 ->
  let st' := foldl (fun st p =>
                      cad_notes nt p (CAD !!! p) (seq 0 (length nt)) st)
                   st ps in
  Forall (cad_note_of nt CAD) st'.1 /\ length st'.2 = length st'.1.
Proof.
  induction ps as [|p ps IH]; intros st Hps Hst; cbn [foldl]; [exact Hst|].
  apply IH; [intros q Hq; by apply Hps, list_elem_of_further|].
  apply cad_notes_inv; [|exact Hst].
  apply list_elem_of_lookup_total_2, Hps, list_elem_of_here.
Qed.


(** X27.  The patterns that are returned are patterns of the input in
    their order, and all of them when no note was found. *)
Theorem long_CAD_pattern_detection_short_CAD nt CAD :
  sublist (long_CAD_pattern_detection nt CAD).2 CAD
  /\ ((long_CAD_pattern_detection nt CAD).1 = [] ->
      (long_CAD_pattern_detection nt CAD).2 = CAD).
Proof.
  unfold long_CAD_pattern_detection. cbn [fst snd].
  split; [apply delete_from_sublist|]. intros Hnil.
  destruct (cad_patterns_inv nt CAD (seq 0 (length CAD)) ([], []))
    as [_ Hlen].
  - intros p Hp. apply elem_of_seq in Hp. lia.
  - split; [constructor|reflexivity].
  - cbn zeta in Hlen. rewrite Hnil in Hlen.
    apply nil_length_inv in Hlen. rewrite Hlen. apply delete_from_nil.
Qed.

End slow_bend_more.

Section detect.

(** X28.  [LongSlide.detect] raises as soon as the quantised melody ends
    with two equal voiced frames, whatever the tables are: [frame2note]
    follows the last run one frame past the end. *)
Theorem long_slide_detect_held_end argsort (pre : list Z) v hop sr
    max_dur min_dur esn ts :
  v <> 0%Z ->
  Detect.long_slide argsort (pre ++ [v; v]) hop sr max_dur min_dur esn ts
  = None.
Proof.
  intros Hv. unfold Detect.long_slide.
  by rewrite frame2note_held_end.
Qed.

Lemma long_slide_detect_held_end_witness :
  Detect.long_slide (fun _ => []) ([0; 62]%Z ++ [64; 64]%Z) 256 44100
    (1#10) (1#100) [] []
  = None.
Proof.
  apply (long_slide_detect_held_end (fun _ => []) [0; 62]%Z 64). done.
Defined.

Lemma update_esn_no_notes esn tq sub : Common.update_esn esn [] tq sub = esn.
Proof. unfold Common.update_esn. cbn [foldl fst snd]. apply delete_from_nil. Qed.

Lemma filter_all {A} (P : A -> Prop) `{forall x, Decision (P x)} (l : list A) :
  Forall P l -> filter P l = l.
Proof.
  induction 1 as [|x l Hx _ IH]; [reflexivity|].
  rewrite filter_cons, decide_True by exact Hx. by rewrite IH.
Qed.

(** X29.  Notes that all have a pitch, none of them followed by a note
    one or two semitones higher: [WildVibrato.detect] finds nothing.
    The table is the note list with nine zero columns, and there is no
    time segment. *)
Theorem wild_vibrato_detect_plain argsort raw_note :
  argsort [] = [] ->
  Forall (fun x => ~ (pitch x == 0)%Q) raw_note ->
  (forall n, n + 1 < length raw_note ->
     ~ (pitch_step_at raw_note n == 2)%Q
     /\ ~ (pitch_step_at raw_note n == 1)%Q) ->
  Detect.wild_vibrato argsort raw_note
  = (map esn_of_note raw_note, [], [], []).
Proof.
  intros Hsort Hp Hsteps. unfold Detect.wild_vibrato.
  assert (forall extent,
            (forall n, n + 1 < length raw_note ->
               ~ (pitch_step_at raw_note n == extent)%Q) ->
            WildVibrato.identify_serrated_pattern raw_note extent
            = (raw_note, [])) as Hplain.
  { intros extent Hno. unfold WildVibrato.identify_serrated_pattern.
    rewrite (serrated_steps_plain extent raw_note (length raw_note) 0 [])
      by (done || lia).
    cbn [fst snd app drop]. f_equal. apply filter_all.
    eapply Forall_impl; [exact Hp|]. intros x Hx. by apply num_neqb_true. }
  rewrite (Hplain 2%Q) by (intros n Hn; apply Hsteps, Hn).
  rewrite (Hplain 1%Q) by (intros n Hn; apply Hsteps, Hn).
  rewrite !update_esn_no_notes.
  unfold update_ts, take_rows. cbn [Common.note_2_ts map app].
  rewrite Hsort. cbn [map app]. by rewrite Hsort.
Qed.

Lemma wild_vibrato_detect_plain_witness :
  Detect.wild_vibrato (fun _ => [])
    [Note 60 0 1; Note 64 1 1; Note 67 2 1]
  = (map esn_of_note [Note 60 0 1; Note 64 1 1; Note 67 2 1], [], [], []).
Proof.
  apply wild_vibrato_detect_plain.
  - reflexivity.
  - repeat constructor; by vm_compute.
  - intros n Hn. cbn [length] in Hn.
    destruct n as [|[|n]]; [split; by vm_compute..|lia].
Defined.




End detect.
